(** * The game-state reducer of hanabi-live

    A shallow embedding of

    - [packages/game/src/interfaces/StatsState.ts], which holds the
      [StatsState] interface, the [VariantDescription] interface and the
      top-level reducer ([gameStateReducer], [gameStateReducerFunction],
      [cardCycle], [throwItInAHolePlayedOrMisplayed]);
    - [packages/client/src/game/rules/text.ts], the narration functions.

    Conventions.

    - A JavaScript [number] that the code uses as a count, an index or a
      card order is a [Z]; the two statistics that may be fractional are [Q].
    - A JavaScript array is a [list]; [xs[i]] is [Js.get xs i], which is
      [None] ([undefined]) for a negative or too large index.
    - An element of a hand is an [option CardOrder]: [cardCycle] can store
      [undefined] in a hand (it pushes [removed[0]] unchecked), and [None] is
      that element.
    - The three per-suit tables that the reducer assigns by index
      ([playStackDirections], [playStackStarts], [cardStatus]) are finite
      maps from the index, as an assignment [xs[i] = v] in JavaScript
      creates the property whatever the index is.
    - The recipe mutates an immer draft.  A draft is the pair of the
      untouched base state and the working copy; a [throw] leaves the
      working copy as it was at that point, and it is [produce] that
      decides what the caller gets.
    - Functions and types of the repository that the two files import but
      do not define are fields of [ExternalTypes] and [Externals]. *)

From Stdlib Require Import ZArith List String Ascii Bool Lia QArith_base.
From stdpp Require Import base option list gmap strings pretty sorting.

Open Scope Z_scope.

(** ** JavaScript arrays over lists *)

Module Js.

(** [xs[i]]: [undefined] outside [0 .. length-1]. *)
Definition get {A} (xs : list A) (i : Z) : option A :=
  if decide (0 ≤ i) then xs !! Z.to_nat i else None.

(** [xs.length]. *)
Definition length {A} (xs : list A) : Z := Z.of_nat (List.length xs).

(** [xs.indexOf(x)], [-1] when [x] is absent. *)
Fixpoint indexOf {A} `{EqDecision A} (xs : list A) (x : A) : Z :=
  match xs with
  | [] => -1
  | y :: ys =>
      if decide (y = x) then 0
      else let r := indexOf ys x in if decide (r = -1) then -1 else r + 1
  end.

(** [xs.includes(x)] for an array of numbers and a value that is a number
    or [undefined]. *)
Definition includes (xs : list Z) (x : option Z) : bool :=
  match x with Some n => bool_decide (n ∈ xs) | None => false end.

(** The start position of [xs.splice(start, ...)]: a negative start counts
    from the end, and the result is clamped to [0 .. length]. *)
Definition spliceStart {A} (xs : list A) (start : Z) : nat :=
  if decide (start < 0) then Z.to_nat (Z.max (length xs + start) 0)
  else Z.to_nat (Z.min start (length xs)).

(** [xs.splice(start, 1)]: the removed elements (at most one) and what is
    left of [xs]. *)
Definition splice1 {A} (xs : list A) (start : Z) : list A * list A :=
  let k := spliceStart xs start in
  (take 1 (drop k xs), take k xs ++ drop (S k) xs).

(** [xs.push(x)]. *)
Definition push {A} (xs : list A) (x : A) : list A := xs ++ [x].

(** [xs.join(sep)] on strings. *)
Fixpoint join (sep : string) (xs : list string) : string :=
  match xs with
  | [] => ""
  | [x] => x
  | x :: rest => x +:+ sep +:+ join sep rest
  end.

(** [xs.slice(0, -1)]. *)
Definition sliceButLast {A} (xs : list A) : list A :=
  take (List.length xs - 1) xs.

(** [xs.at(-1)]. *)
Definition atLast {A} (xs : list A) : option A := last xs.

(** [s.endsWith(c)] for a one-character suffix. *)
Fixpoint endsWithChar (s : string) (c : ascii) : bool :=
  match s with
  | EmptyString => false
  | String a EmptyString => bool_decide (a = c)
  | String _ rest => endsWithChar rest c
  end.

(** Insertion into a list sorted by [leb]; [sort] is a stable sort, as
    [Array.prototype.sort] is. *)
Fixpoint insertSorted {A} (leb : A → A → bool) (x : A) (xs : list A) : list A :=
  match xs with
  | [] => [x]
  | y :: ys => if leb x y then x :: xs else y :: insertSorted leb x ys
  end.

Definition sort {A} (leb : A → A → bool) (xs : list A) : list A :=
  foldr (insertSorted leb) [] xs.

(** The order of [sort()] without a comparator on strings: by character
    code. *)
Definition stringLeb (a b : string) : bool :=
  match String.compare a b with Gt => false | _ => true end.

End Js.

(** ** Types the two files import *)

(** Types of the repository that are declared in neither file.  The reducer
    only stores their values and hands them to the functions of
    [Externals]. *)
Record ExternalTypes : Type := {
  CardState : Type;
  CardNote : Type;
  PaceRisk : Type;
  StackDirection : Type;
  CardStatus : Type;
  CharacterAssignments : Type;
  TurnRest : Type;          (* the fields of [TurnState] the reducer never reads *)
  OptionsRest : Type;       (* the game options the two files never read *)
  OtherAction : Type;       (* the payload of an action the reducer ignores *)
}.

Definition CardOrder := Z.
Definition PlayerIndex := Z.

Inductive ClueType := Color | Rank.

Inductive EndCondition :=
| InProgress | Normal | Strikeout | Timeout | TerminatedByPlayer
| TerminatedByVote | SpeedrunFail | IdleTimeout | CharacterSoftlock
| AllOrNothingFail | AllOrNothingSoftlock.

#[global] Instance EndCondition_eq_dec : EqDecision EndCondition.
Proof. solve_decision. Defined.

(** The variant, with the suit and rank lists and the rule flags that
    [VariantDescription] lists. *)
Record Variant := {
  name : string;
  suits : list string;
  ranks : list Z;
  specialRank : Z;
  criticalRank : Z;
  clueStarved : bool;
  colorCluesTouchNothing : bool;
  rankCluesTouchNothing : bool;
  alternatingClues : bool;
  cowAndPig : bool;
  duck : bool;
  oddsAndEvens : bool;
  synesthesia : bool;
  upOrDown : bool;
  throwItInAHole : bool;
  funnels : bool;
  chimneys : bool;
  sudoku : bool;
}.

Section Reducer.

Context {T : ExternalTypes}.

(** ** The state *)

(** [StatsState], as the interface declares it. *)
Record StatsState := {
  maxScore : Z;
  maxScorePerStack : list Z;
  pace : option Z;
  paceRisk : PaceRisk T;
  finalRoundEffectivelyStarted : bool;
  cardsGotten : Z;
  potentialCluesLost : Q;
  cluesStillUsable : option Z;
  cluesStillUsableNotRounded : option Q;
  cardsGottenByNotes : option Z;
  doubleDiscard : option CardOrder;
  numSubsequentBlindPlays : Z;
  numSubsequentMisplays : Z;
  stats_numAttemptedCardsPlayed : Z;
}.

(** The fields of [state.turn] that the reducer reads; [segment] and
    [currentPlayerIndex] are [null] until they are known. *)
Record TurnState := {
  segment : option Z;
  turnNum : Z;
  currentPlayerIndex : option PlayerIndex;
  turnRest : TurnRest T;
}.

(** An element of [state.clues] (lines 148-156 and 161-169). *)
Record StateClue := {
  clue_type : ClueType;
  clue_value : Z;
  clue_giver : PlayerIndex;
  clue_target : PlayerIndex;
  clue_segment : Z;
  clue_list : list CardOrder;
  clue_negativeList : list (option CardOrder);
}.

(** An element of [state.strikes] (lines 438-441); the segment is stored as
    it is, [null] included. *)
Record StateStrike := {
  strike_order : CardOrder;
  strike_segment : option Z;
}.

(** An element of [state.log]. *)
Record LogEntry := {
  log_turn : Z;
  log_text : string;
}.

(** [GameState], with the fields the two files read or write.  A hand holds
    card orders and, after a [cardCycle] with a chop index outside the hand,
    [undefined]. *)
Record GameState := {
  deck : list (CardState T);
  hands : list (list (option CardOrder));
  playStacks : list (list CardOrder);
  discardStacks : list (list CardOrder);
  playStackDirections : gmap Z (StackDirection T);
  playStackStarts : gmap Z (option Z);
  cardStatus : gmap Z (gmap Z (CardStatus T));
  clueTokens : Z;
  score : Z;
  clues : list StateClue;
  strikes : list StateStrike;
  hole : list CardOrder;
  turn : TurnState;
  stats : StatsState;
  log : list LogEntry;
  cardsRemainingInTheDeck : Z;
  numAttemptedCardsPlayed : Z;
}.

(** Field updates: [set_f v s] is [s] with its field [f] replaced by [v]. *)
Definition set_deck (v : list (CardState T)) (s : GameState) : GameState :=
  Build_GameState v (hands s) (playStacks s) (discardStacks s)
    (playStackDirections s) (playStackStarts s) (cardStatus s) (clueTokens
    s) (score s) (clues s) (strikes s) (hole s) (turn s) (stats s) (log s)
    (cardsRemainingInTheDeck s) (numAttemptedCardsPlayed s).
Definition set_hands (v : list (list (option CardOrder))) (s : GameState)
  : GameState :=
  Build_GameState (deck s) v (playStacks s) (discardStacks s)
    (playStackDirections s) (playStackStarts s) (cardStatus s) (clueTokens
    s) (score s) (clues s) (strikes s) (hole s) (turn s) (stats s) (log s)
    (cardsRemainingInTheDeck s) (numAttemptedCardsPlayed s).
Definition set_playStacks (v : list (list CardOrder)) (s : GameState) : GameState :=
  Build_GameState (deck s) (hands s) v (discardStacks s)
    (playStackDirections s) (playStackStarts s) (cardStatus s) (clueTokens
    s) (score s) (clues s) (strikes s) (hole s) (turn s) (stats s) (log s)
    (cardsRemainingInTheDeck s) (numAttemptedCardsPlayed s).
Definition set_discardStacks (v : list (list CardOrder)) (s : GameState) : GameState :=
  Build_GameState (deck s) (hands s) (playStacks s) v (playStackDirections
    s) (playStackStarts s) (cardStatus s) (clueTokens s) (score s) (clues s)
    (strikes s) (hole s) (turn s) (stats s) (log s) (cardsRemainingInTheDeck
    s) (numAttemptedCardsPlayed s).
Definition set_playStackDirections (v : gmap Z (StackDirection T)) (s : GameState) : GameState :=
  Build_GameState (deck s) (hands s) (playStacks s) (discardStacks s) v
    (playStackStarts s) (cardStatus s) (clueTokens s) (score s) (clues s)
    (strikes s) (hole s) (turn s) (stats s) (log s) (cardsRemainingInTheDeck
    s) (numAttemptedCardsPlayed s).
Definition set_playStackStarts (v : gmap Z (option Z)) (s : GameState) : GameState :=
  Build_GameState (deck s) (hands s) (playStacks s) (discardStacks s)
    (playStackDirections s) v (cardStatus s) (clueTokens s) (score s) (clues
    s) (strikes s) (hole s) (turn s) (stats s) (log s)
    (cardsRemainingInTheDeck s) (numAttemptedCardsPlayed s).
Definition set_cardStatus (v : gmap Z (gmap Z (CardStatus T))) (s : GameState) : GameState :=
  Build_GameState (deck s) (hands s) (playStacks s) (discardStacks s)
    (playStackDirections s) (playStackStarts s) v (clueTokens s) (score s)
    (clues s) (strikes s) (hole s) (turn s) (stats s) (log s)
    (cardsRemainingInTheDeck s) (numAttemptedCardsPlayed s).
Definition set_clueTokens (v : Z) (s : GameState) : GameState :=
  Build_GameState (deck s) (hands s) (playStacks s) (discardStacks s)
    (playStackDirections s) (playStackStarts s) (cardStatus s) v (score s)
    (clues s) (strikes s) (hole s) (turn s) (stats s) (log s)
    (cardsRemainingInTheDeck s) (numAttemptedCardsPlayed s).
Definition set_score (v : Z) (s : GameState) : GameState :=
  Build_GameState (deck s) (hands s) (playStacks s) (discardStacks s)
    (playStackDirections s) (playStackStarts s) (cardStatus s) (clueTokens
    s) v (clues s) (strikes s) (hole s) (turn s) (stats s) (log s)
    (cardsRemainingInTheDeck s) (numAttemptedCardsPlayed s).
Definition set_clues (v : list StateClue) (s : GameState) : GameState :=
  Build_GameState (deck s) (hands s) (playStacks s) (discardStacks s)
    (playStackDirections s) (playStackStarts s) (cardStatus s) (clueTokens
    s) (score s) v (strikes s) (hole s) (turn s) (stats s) (log s)
    (cardsRemainingInTheDeck s) (numAttemptedCardsPlayed s).
Definition set_strikes (v : list StateStrike) (s : GameState) : GameState :=
  Build_GameState (deck s) (hands s) (playStacks s) (discardStacks s)
    (playStackDirections s) (playStackStarts s) (cardStatus s) (clueTokens
    s) (score s) (clues s) v (hole s) (turn s) (stats s) (log s)
    (cardsRemainingInTheDeck s) (numAttemptedCardsPlayed s).
Definition set_hole (v : list CardOrder) (s : GameState) : GameState :=
  Build_GameState (deck s) (hands s) (playStacks s) (discardStacks s)
    (playStackDirections s) (playStackStarts s) (cardStatus s) (clueTokens
    s) (score s) (clues s) (strikes s) v (turn s) (stats s) (log s)
    (cardsRemainingInTheDeck s) (numAttemptedCardsPlayed s).
Definition set_turn (v : TurnState) (s : GameState) : GameState :=
  Build_GameState (deck s) (hands s) (playStacks s) (discardStacks s)
    (playStackDirections s) (playStackStarts s) (cardStatus s) (clueTokens
    s) (score s) (clues s) (strikes s) (hole s) v (stats s) (log s)
    (cardsRemainingInTheDeck s) (numAttemptedCardsPlayed s).
Definition set_stats (v : StatsState) (s : GameState) : GameState :=
  Build_GameState (deck s) (hands s) (playStacks s) (discardStacks s)
    (playStackDirections s) (playStackStarts s) (cardStatus s) (clueTokens
    s) (score s) (clues s) (strikes s) (hole s) (turn s) v (log s)
    (cardsRemainingInTheDeck s) (numAttemptedCardsPlayed s).
Definition set_log (v : list LogEntry) (s : GameState) : GameState :=
  Build_GameState (deck s) (hands s) (playStacks s) (discardStacks s)
    (playStackDirections s) (playStackStarts s) (cardStatus s) (clueTokens
    s) (score s) (clues s) (strikes s) (hole s) (turn s) (stats s) v
    (cardsRemainingInTheDeck s) (numAttemptedCardsPlayed s).
Definition set_cardsRemainingInTheDeck (v : Z) (s : GameState) : GameState :=
  Build_GameState (deck s) (hands s) (playStacks s) (discardStacks s)
    (playStackDirections s) (playStackStarts s) (cardStatus s) (clueTokens
    s) (score s) (clues s) (strikes s) (hole s) (turn s) (stats s) (log s) v
    (numAttemptedCardsPlayed s).
Definition set_numAttemptedCardsPlayed (v : Z) (s : GameState) : GameState :=
  Build_GameState (deck s) (hands s) (playStacks s) (discardStacks s)
    (playStackDirections s) (playStackStarts s) (cardStatus s) (clueTokens
    s) (score s) (clues s) (strikes s) (hole s) (turn s) (stats s) (log s)
    (cardsRemainingInTheDeck s) v.

(** ** Metadata and actions *)

Record Options := {
  variantName : string;
  options_cardCycle : bool;
  timed : bool;
  optionsRest : OptionsRest T;
}.

Record GameMetadata := {
  options : Options;
  playerNames : list string;
  characterAssignments : CharacterAssignments T;
}.

Record MsgClue := {
  msg_type : ClueType;
  msg_value : Z;
}.

Record ActionClue := {
  c_clue : MsgClue;
  c_giver : PlayerIndex;
  c_list : list CardOrder;
  c_target : PlayerIndex;
  c_turn : Z;
  c_ignoreNegative : bool;
}.

(** [suitIndex] is [None] when the field of the action is not a number
    ([typeof action.suitIndex !== "number"]). *)
Record ActionDiscard := {
  d_playerIndex : PlayerIndex;
  d_order : CardOrder;
  d_suitIndex : option Z;
  d_rank : Z;
  d_failed : bool;
}.

Record ActionPlay := {
  p_playerIndex : PlayerIndex;
  p_order : CardOrder;
  p_suitIndex : option Z;
  p_rank : Z;
}.

Record ActionDraw := {
  dr_playerIndex : PlayerIndex;
  dr_order : CardOrder;
  dr_suitIndex : option Z;
  dr_rank : Z;
}.

Record ActionGameOver := {
  go_endCondition : EndCondition;
  go_playerIndex : PlayerIndex;
  go_votes : option (list PlayerIndex);
}.

Record ActionPlayerTimes := {
  pt_playerTimes : list Z;
  pt_duration : Z;
}.

Record ActionStrike := {
  s_num : Z;
  s_turn : Z;
  s_order : CardOrder;
}.

Inductive GameAction :=
| ActClue (a : ActionClue)
| ActDiscard (a : ActionDiscard)
| ActDraw (a : ActionDraw)
| ActGameOver (a : ActionGameOver)
| ActPlay (a : ActionPlay)
| ActPlayerTimes (a : ActionPlayerTimes)
| ActStrike (a : ActionStrike)
| ActSetEffMod (a : OtherAction T)
| ActEditNote (a : OtherAction T)
| ActNoteList (a : OtherAction T)
| ActNoteListPlayer (a : OtherAction T)
| ActReceiveNote (a : OtherAction T)
| ActTurn (a : OtherAction T)
| ActCardIdentity (a : OtherAction T).

(** [action.type]. *)
Definition actionType (action : GameAction) : string :=
  match action with
  | ActClue _ => "clue"
  | ActDiscard _ => "discard"
  | ActDraw _ => "draw"
  | ActGameOver _ => "gameOver"
  | ActPlay _ => "play"
  | ActPlayerTimes _ => "playerTimes"
  | ActStrike _ => "strike"
  | ActSetEffMod _ => "setEffMod"
  | ActEditNote _ => "editNote"
  | ActNoteList _ => "noteList"
  | ActNoteListPlayer _ => "noteListPlayer"
  | ActReceiveNote _ => "receiveNote"
  | ActTurn _ => "turn"
  | ActCardIdentity _ => "cardIdentity"
  end.

(** The argument type [ActionPlay | ActionDiscard]. *)
Inductive ActionPlayOrDiscard :=
| IsPlay (a : ActionPlay)
| IsDiscard (a : ActionDiscard).

Definition pd_order (action : ActionPlayOrDiscard) : CardOrder :=
  match action with IsPlay a => p_order a | IsDiscard a => d_order a end.

Definition pd_playerIndex (action : ActionPlayOrDiscard) : PlayerIndex :=
  match action with
  | IsPlay a => p_playerIndex a
  | IsDiscard a => d_playerIndex a
  end.

Definition pd_suitIndex (action : ActionPlayOrDiscard) : option Z :=
  match action with IsPlay a => p_suitIndex a | IsDiscard a => d_suitIndex a end.

Definition pd_rank (action : ActionPlayOrDiscard) : Z :=
  match action with IsPlay a => p_rank a | IsDiscard a => d_rank a end.

(** ** Exceptions *)

(** What a run can end with instead of a value.  The first four are the
    [throw] statements of the two files; [TypeError] is the run-time
    error of reading a property of [undefined] (a value that the code
    asserts with [!] to be there and that is not). *)
Inductive Exn :=
| BeforeInitialDeal (type : string)          (* line 135 *)
| BadDiscardSuitIndex (suitIndex : option Z) (* line 224 *)
| BadPlaySuitIndex (suitIndex : option Z)    (* line 360 *)
| SlotNotFound (order : CardOrder)           (* text.ts, line 63 *)
| TypeError.

(** The classes of section 7 of the specification. *)
Inductive ErrorClass := SequencingError | InvalidInputError | OtherFailure.

Definition errorClass (e : Exn) : ErrorClass :=
  match e with
  | BeforeInitialDeal _ => SequencingError
  | BadDiscardSuitIndex _ | BadPlaySuitIndex _ => InvalidInputError
  | _ => OtherFailure
  end.

(** [`${x}`] for a value that is a number or [undefined]. *)
Definition showNumber (x : option Z) : string :=
  match x with Some n => pretty n | None => "undefined" end.

Definition dquote : string := String "034"%char EmptyString.

(** The message of the [Error] that is thrown. *)
Definition errorMessage (e : Exn) : string :=
  match e with
  | BeforeInitialDeal type =>
      "A " +:+ dquote +:+ type +:+ dquote
        +:+ " action happened before all of the initial cards were dealt."
  | BadDiscardSuitIndex i =>
      "The suit index for the discarded card was: " +:+ showNumber i
  | BadPlaySuitIndex i =>
      "The suit index for the played card was: " +:+ showNumber i
  | SlotNotFound order =>
      "Failed to get the slot for card: " +:+ pretty order
  | TypeError => "TypeError"
  end.

Inductive Completion (A : Type) :=
| Return (a : A)
| Throw (e : Exn).
Arguments Return {A} a.
Arguments Throw {A} e.

(** ** The draft and the recipe monad *)

(** An immer draft: [base_] is the state [produce] was given and is what
    [original] returns; reads and writes go to [copy_]. *)
Record Draft := {
  base_ : GameState;
  copy_ : GameState;
}.

Definition createDraft (base : GameState) : Draft :=
  {| base_ := base; copy_ := base |}.

(** A computation on a draft.  The draft is returned in both cases: what was
    written before a [throw] stays written in the draft. *)
Definition M (A : Type) : Type := Draft → Completion A * Draft.

#[global] Instance M_ret : MRet M := λ A a d, (Return a, d).

#[global] Instance M_bind : MBind M := λ A B f m d,
  match m d with
  | (Return a, d') => f a d'
  | (Throw e, d') => (Throw e, d')
  end.

Definition throw {A} (e : Exn) : M A := λ d, (Throw e, d).

(** Reading the draft. *)
Definition getState : M GameState := λ d, (Return (copy_ d), d).

(** [original(state)]. *)
Definition original : M GameState := λ d, (Return (base_ d), d).

(** Writing to the draft. *)
Definition modify (f : GameState → GameState) : M unit :=
  λ d, (Return tt, {| base_ := base_ d; copy_ := f (copy_ d) |}).

(** [x!] followed by a property access, or handed to a function that reads
    it: a [TypeError] when [x] is [undefined]. *)
Definition nonNull {A} (x : option A) : M A :=
  match x with Some a => mret a | None => throw TypeError end.

Definition liftCompletion {A} (c : Completion A) : M A :=
  match c with Return a => mret a | Throw e => throw e end.

(** [for (const x of xs) body(x)]. *)
Fixpoint forEach {A} (xs : list A) (body : A → M unit) : M unit :=
  match xs with
  | [] => mret tt
  | x :: rest => body x ;; forEach rest body
  end.

(** ** Functions the two files import *)

(** The functions of the repository that the two files call and do not
    define, each under the name of the module it is imported from.  They are
    functions of their arguments only: the sub-reducers return the new deck,
    turn or statistics and write nothing themselves. *)
Record Externals := {
  getVariant : string → Variant;
  clueTokensRules_getAdjusted : Z → Variant → Z;
  clueTokensRules_gain : ActionPlayOrDiscard → Z → Variant → bool → Z;
  cardRules_isClued : CardState T → bool;
  cardRules_status :
    Z → Z → list (CardState T) → list (list CardOrder) →
    gmap Z (StackDirection T) → gmap Z (option Z) → Variant → CardStatus T;
  deckRules_isInitialDealFinished : Z → GameMetadata → bool;
  handRules_chopIndex : list (option CardOrder) → list (CardState T) → Z;
  playStacksRules_direction :
    Z → list CardOrder → list (CardState T) → Variant → StackDirection T;
  playStacksRules_stackStartRank :
    list CardOrder → list (CardState T) → Variant → option Z;
  variantRules_hasReversedSuits : Variant → bool;
  cardsReducer :
    list (CardState T) → GameAction → GameState → GameMetadata →
    list (CardState T);
  turnReducer : TurnState → GameAction → GameState → GameMetadata → TurnState;
  statsReducer :
    StatsState → GameAction → GameState → GameState → bool → bool →
    GameMetadata → option (list (CardNote T)) → StatsState;
  ddaReducer :
    list (CardState T) → option CardOrder → option PlayerIndex →
    list (CardState T);
  knownTrashReducer :
    list (CardState T) → list (list CardOrder) → gmap Z (StackDirection T) →
    gmap Z (option Z) → Variant → list (CardState T);
  getCardName : option Z → Z → Variant → string;
  getCardSlot : CardOrder → list (option CardOrder) → option Z;
  getCharacterNameForPlayer : PlayerIndex → CharacterAssignments T → string;
  getClueName : ClueType → Z → Variant → string → string;
  (* [getPlayerName] of [types/GameMetadata] and [millisecondsToClockString]
     of [utils], which the reducer imports (lines 77 and 90); the functions
     of these names in [rules/text.ts] are defined below. *)
  GameMetadata_getPlayerName : PlayerIndex → GameMetadata → string;
  utils_millisecondsToClockString : Z → string;
}.

Context (E : Externals).

(** ** The narration, [rules/text.ts] *)

Definition HYPO_PREFIX : string := "[Hypo] ".

Definition WORDS : list string :=
  ["zero"; "one"; "two"; "three"; "four"; "five"; "six"].

(** [x ?? d]. *)
Definition orElse {A} (x : option A) (d : A) : A := default d x.

Definition getPlayerName (playerIndex : PlayerIndex) (metadata : GameMetadata)
  : string :=
  orElse (Js.get (playerNames metadata) playerIndex) "[unknown]".

(** [goesFirst], lines 26-36 of [text.ts]: the name of the player, or
    [[unknown]] when the index is [null] or names no player. *)
Definition goesFirst (playerIndex : option PlayerIndex)
    (playerNames : list string) : string :=
  let playerName :=
    match playerIndex with
    | None => "[unknown]"
    | Some i => orElse (Js.get playerNames i) "[unknown]"
    end in
  playerName +:+ " goes first".

Definition getClueActionName (msgClue : MsgClue) (variant : Variant)
    (characterName : string) : string :=
  if cowAndPig variant then
    match msg_type msgClue with
    | Color => "moos"
    | Rank => "oinks"
    end
  else if duck variant || String.eqb characterName "Quacker" then "quacks"
  else "clues".

(** The loop of lines 61-66: the slot of every touched card, or the
    exception of [assertDefined].  A run with cards to look up in a hand
    that is [undefined] ends in a [TypeError]. *)
Fixpoint clueSlots (orders : list CardOrder)
    (targetHand : option (list (option CardOrder))) : Completion (list Z) :=
  match orders with
  | [] => Return []
  | order :: rest =>
      match targetHand with
      | None => Throw TypeError
      | Some hand =>
          match getCardSlot E order hand with
          | None => Throw (SlotNotFound order)
          | Some slot =>
              match clueSlots rest targetHand with
              | Return slots => Return (slot :: slots)
              | Throw e => Throw e
              end
          end
      end
  end.

Definition text_clue (action : ActionClue)
    (targetHand : option (list (option CardOrder))) (hypothetical : bool)
    (metadata : GameMetadata) : Completion string :=
  let giver := orElse (Js.get (playerNames metadata) (c_giver action)) "unknown" in
  let target := orElse (Js.get (playerNames metadata) (c_target action)) "unknown" in
  let word := orElse (Js.get WORDS (Js.length (c_list action))) "unknown" in
  let variant := getVariant E (variantName (options metadata)) in
  let hypoPrefix := if hypothetical then HYPO_PREFIX else "" in
  let characterName :=
    getCharacterNameForPlayer E (c_giver action) (characterAssignments metadata) in
  if cowAndPig variant || duck variant || String.eqb characterName "Quacker" then
    let actionName := getClueActionName (c_clue action) variant characterName in
    let targetSuffix := if Js.endsWithChar target "s" then "'" else "'s" in
    match clueSlots (c_list action) targetHand with
    | Throw e => Throw e
    | Return unsorted =>
        let slots := Js.sort Z.leb unsorted in
        let slotWord := if decide (Js.length slots = 1) then "slot" else "slots" in
        let slotsText := Js.join "/" (pretty <$> slots) in
        Return (hypoPrefix +:+ giver +:+ " " +:+ actionName +:+ " at "
                  +:+ targetSuffix +:+ " " +:+ slotWord +:+ " " +:+ slotsText)
    end
  else
    let clueName :=
      getClueName E (msg_type (c_clue action)) (msg_value (c_clue action))
        variant characterName in
    let clueName :=
      if decide (Js.length (c_list action) ≠ 1) then clueName +:+ "s"
      else clueName in
    Return (hypoPrefix +:+ giver +:+ " tells " +:+ target +:+ " about "
              +:+ word +:+ " " +:+ clueName).

Definition getPlayerNames (playerIndices : option (list PlayerIndex))
    (metadata : GameMetadata) : string :=
  match playerIndices with
  | None => "The players"
  | Some indices =>
      let names :=
        Js.sort Js.stringLeb ((λ i, getPlayerName i metadata) <$> indices) in
      match names with
      | [a; b] => a +:+ " and " +:+ b
      | _ =>
          Js.join ", " (Js.sliceButLast names) +:+ ", and "
            +:+ orElse (Js.atLast names) "undefined"
      end
  end.

Definition text_gameOver (endCondition : EndCondition)
    (playerIndex : PlayerIndex) (score : Z) (metadata : GameMetadata)
    (votes : option (list PlayerIndex)) : string :=
  let playerName := getPlayerName playerIndex metadata in
  match endCondition with
  | InProgress | Normal => "Players score " +:+ pretty score +:+ " points."
  | Timeout => playerName +:+ " ran out of time!"
  | TerminatedByPlayer => playerName +:+ " terminated the game!"
  | TerminatedByVote =>
      getPlayerNames votes metadata +:+ " voted to terminate the game!"
  | IdleTimeout => "Players were idle for too long."
  | CharacterSoftlock => playerName +:+ " was left with 0 clues!"
  | AllOrNothingSoftlock => playerName +:+ " was left with 0 clues and 0 cards!"
  | Strikeout | SpeedrunFail | AllOrNothingFail => "Players lose!"
  end.

(** [slot === null ? "the deck" : `slot #${slot}`]. *)
Definition location (slot : option Z) : string :=
  match slot with
  | None => "the deck"
  | Some n => "slot #" +:+ pretty n
  end.

Definition text_play (action : ActionPlay) (slot : option Z) (touched : bool)
    (playing shadowing hypothetical : bool) (metadata : GameMetadata) : string :=
  let variant := getVariant E (variantName (options metadata)) in
  let playerName := getPlayerName (p_playerIndex action) metadata in
  let cardName :=
    if bool_decide (p_suitIndex action = Some (-1))
       || bool_decide (p_rank action = -1)
       || (throwItInAHole variant && (playing || shadowing))
    then "a card"
    else getCardName E (p_suitIndex action) (p_rank action) variant in
  let suffix := if negb touched then " (blind)" else "" in
  let hypoPrefix := if hypothetical then HYPO_PREFIX else "" in
  hypoPrefix +:+ playerName +:+ " plays " +:+ cardName +:+ " from "
    +:+ location slot +:+ suffix.

Definition text_discard (action : ActionDiscard) (slot : option Z)
    (touched : bool) (playing shadowing hypothetical : bool)
    (metadata : GameMetadata) : string :=
  let variant := getVariant E (variantName (options metadata)) in
  let playerName := getPlayerName (d_playerIndex action) metadata in
  let verb :=
    if d_failed action then
      if throwItInAHole variant && (playing || shadowing) then "plays"
      else "fails to play"
    else "discards" in
  let cardName :=
    if bool_decide (d_suitIndex action = Some (-1))
       || bool_decide (d_rank action = -1)
    then "a card"
    else getCardName E (d_suitIndex action) (d_rank action) variant in
  let suffix :=
    if d_failed action && touched && negb (throwItInAHole variant)
    then " (clued)" else "" in
  let suffix :=
    if d_failed action && bool_decide (slot ≠ None) && negb touched
    then " (blind)" else suffix in
  let hypoPrefix := if hypothetical then HYPO_PREFIX else "" in
  hypoPrefix +:+ playerName +:+ " " +:+ verb +:+ " " +:+ cardName +:+ " from "
    +:+ location slot +:+ suffix.

Definition pad2 (num : Z) : string :=
  if decide (num < 10) then "0" +:+ pretty num else pretty num.

(** [Math.ceil(time / 1000)] is computed on integers. *)
Definition millisecondsToClockString (milliseconds : Z) : string :=
  let time := Z.abs milliseconds in
  let seconds := (time + 999) / 1000 in
  pretty (seconds / 60) +:+ ":" +:+ pad2 (seconds mod 60).

(** ** The reducer *)

(** Lines 573-597. *)
Definition throwItInAHolePlayedOrMisplayed (action : ActionPlayOrDiscard)
    (variant : Variant) (playing shadowing finished : bool) : M bool :=
  if negb (throwItInAHole variant) || (negb playing && negb shadowing) || finished
  then mret false
  else if match action with IsDiscard a => d_failed a | IsPlay _ => true end
  then
    modify (λ s, set_hole (Js.push (hole s) (pd_order action)) s) ;;
    modify (λ s, set_numAttemptedCardsPlayed (numAttemptedCardsPlayed s + 1) s) ;;
    mret true
  else mret false.

(** Lines 551-571.  The hand is changed in place in the source; here the
    new hand is returned and the caller stores it.  The hand is an option
    because the caller passes [state.hands[action.giver]] unchecked.  When
    [splice] removes nothing (a chop index outside the hand),
    [removedCardOrder] is [undefined] and that is what is pushed. *)
Definition cardCycle (hand : option (list (option CardOrder)))
    (deck : list (CardState T)) (metadata : GameMetadata)
  : Completion (option (list (option CardOrder))) :=
  if negb (options_cardCycle (options metadata)) then Return hand
  else
    match hand with
    | None => Throw TypeError
    | Some hand =>
        let chopIndex := handRules_chopIndex E hand deck in
        if decide (chopIndex = Js.length hand - 1) then Return (Some hand)
        else
          let '(removed, rest) := Js.splice1 hand chopIndex in
          let removedCardOrder := mjoin (Js.get removed 0) in
          Return (Some (Js.push rest removedCardOrder))
    end.

(** Lines 204-211 and 340-346: the card leaves the hand, and [slot] is its
    position counted from the newest card, or [null]. *)
Definition removeFromHand (hand : list (option CardOrder)) (order : CardOrder)
  : option Z * list (option CardOrder) :=
  let handIndex := Js.indexOf hand (Some order) in
  if decide (handIndex ≠ -1)
  then (Some (Js.length hand - handIndex), snd (Js.splice1 hand handIndex))
  else (None, hand).

Definition pushLog (text : string) : M unit :=
  modify (λ s, set_log
    (Js.push (log s) {| log_turn := turnNum (turn s) + 1; log_text := text |}) s).

(** [`${name}`] for a string or [undefined]. *)
Definition showString (x : option string) : string := orElse x "undefined".

(** The [switch] of lines 116-455. *)
Definition actionBranch (action : GameAction)
    (playing shadowing finished hypothetical : bool) (metadata : GameMetadata)
    (variant : Variant) : M unit :=
  match action with
  | ActClue a =>
      modify (λ s, set_clueTokens
        (clueTokens s - clueTokensRules_getAdjusted E 1 variant) s) ;;
      state ← getState ;
      match segment (turn state) with
      | None => throw (BeforeInitialDeal (actionType action))
      | Some seg =>
          negativeList ←
            (if c_ignoreNegative a then mret []
             else
               targetHand ← nonNull (Js.get (hands state) (c_target a)) ;
               mret (List.filter (λ i, negb (Js.includes (c_list a) i)) targetHand)) ;
          let record := {|
            clue_type := msg_type (c_clue a);
            clue_value := msg_value (c_clue a);
            clue_giver := c_giver a;
            clue_target := c_target a;
            clue_segment := seg;
            clue_list := c_list a;
            clue_negativeList := negativeList |} in
          match msg_type (c_clue a) with
          | Color => modify (λ s, set_clues (Js.push (clues s) record) s)
          | Rank => modify (λ s, set_clues (Js.push (clues s) record) s)
          end ;;
          let targetHand := Js.get (hands state) (c_target a) in
          text ← liftCompletion (text_clue a targetHand hypothetical metadata) ;
          pushLog text ;;
          let giverHand := Js.get (hands state) (c_giver a) in
          cycled ← liftCompletion (cardCycle giverHand (deck state) metadata) ;
          match cycled with
          | Some hand =>
              modify (λ s, set_hands (<[Z.to_nat (c_giver a) := hand]> (hands s)) s)
          | None => mret tt
          end
      end
  | ActDiscard a =>
      state ← getState ;
      hand ← nonNull (Js.get (hands state) (d_playerIndex a)) ;
      let '(slot, hand') := removeFromHand hand (d_order a) in
      modify (λ s, set_hands (<[Z.to_nat (d_playerIndex a) := hand']> (hands s)) s) ;;
      redirected ←
        throwItInAHolePlayedOrMisplayed (IsDiscard a) variant playing shadowing
          finished ;
      (if negb redirected then
         match d_suitIndex a with
         | Some suitIndex =>
             if decide (suitIndex < 0)
             then throw (BadDiscardSuitIndex (d_suitIndex a))
             else
               state ← getState ;
               stack ← nonNull (Js.get (discardStacks state) suitIndex) ;
               modify (λ s, set_discardStacks
                 (<[Z.to_nat suitIndex := Js.push stack (d_order a)]>
                    (discardStacks s)) s) ;;
               modify (λ s, set_clueTokens
                 (clueTokensRules_gain E (IsDiscard a) (clueTokens s) variant false) s)
         | None => throw (BadDiscardSuitIndex (d_suitIndex a))
         end
       else mret tt) ;;
      state ← getState ;
      card ← nonNull (Js.get (deck state) (d_order a)) ;
      let touched := cardRules_isClued E card in
      pushLog (text_discard a slot touched playing shadowing hypothetical metadata)
  | ActDraw a =>
      modify (λ s, set_cardsRemainingInTheDeck (cardsRemainingInTheDeck s - 1) s) ;;
      state ← getState ;
      match Js.get (hands state) (dr_playerIndex a) with
      | Some hand =>
          modify (λ s, set_hands
            (<[Z.to_nat (dr_playerIndex a) := Js.push hand (Some (dr_order a))]>
               (hands s)) s)
      | None => mret tt
      end ;;
      state ← getState ;
      if deckRules_isInitialDealFinished E (cardsRemainingInTheDeck state) metadata
      then
        pushLog
          (showString
             (i ← currentPlayerIndex (turn state) ; Js.get (playerNames metadata) i)
           +:+ " goes first")
      else mret tt
  | ActGameOver a =>
      (if decide (go_endCondition a ≠ Normal)
       then modify (set_score 0) else mret tt) ;;
      state ← getState ;
      pushLog
        (text_gameOver (go_endCondition a) (go_playerIndex a) (score state)
           metadata (go_votes a))
  | ActPlay a =>
      state ← getState ;
      hand ← nonNull (Js.get (hands state) (p_playerIndex a)) ;
      let '(slot, hand') := removeFromHand hand (p_order a) in
      modify (λ s, set_hands (<[Z.to_nat (p_playerIndex a) := hand']> (hands s)) s) ;;
      redirected ←
        throwItInAHolePlayedOrMisplayed (IsPlay a) variant playing shadowing
          finished ;
      (if negb redirected then
         match p_suitIndex a with
         | Some suitIndex =>
             if decide (suitIndex < 0)
             then throw (BadPlaySuitIndex (p_suitIndex a))
             else
               state ← getState ;
               playStack ← nonNull (Js.get (playStacks state) suitIndex) ;
               let playStack := Js.push playStack (p_order a) in
               modify (λ s, set_playStacks
                 (<[Z.to_nat suitIndex := playStack]> (playStacks s)) s) ;;
               modify (λ s, set_clueTokens
                 (clueTokensRules_gain E (IsPlay a) (clueTokens s) variant
                    (bool_decide (Js.length playStack = 5))) s)
         | None => throw (BadPlaySuitIndex (p_suitIndex a))
         end
       else mret tt) ;;
      modify (λ s, set_score (score s + 1) s) ;;
      state ← getState ;
      card ← nonNull (Js.get (deck state) (p_order a)) ;
      let touched := cardRules_isClued E card in
      pushLog (text_play a slot touched playing shadowing hypothetical metadata)
  | ActPlayerTimes a =>
      forEach (imap (λ i time, (Z.of_nat i, time)) (pt_playerTimes a))
        (λ '(i, time),
           let modifier := if timed (options metadata) then 1 else -1 in
           let milliseconds := time * modifier in
           let durationString :=
             utils_millisecondsToClockString E milliseconds in
           let playerName := GameMetadata_getPlayerName E i metadata in
           pushLog
             (if timed (options metadata)
              then playerName +:+ " had " +:+ durationString +:+ " left"
              else playerName +:+ " took: " +:+ durationString)) ;;
      pushLog
        ("The total game duration was: "
           +:+ utils_millisecondsToClockString E (pt_duration a))
  | ActStrike a =>
      modify (λ s, set_strikes
        (Js.push (strikes s)
           {| strike_order := s_order a; strike_segment := segment (turn s) |}) s)
  | ActSetEffMod _ | ActEditNote _ | ActNoteList _ | ActNoteListPlayer _
  | ActReceiveNote _ | ActTurn _ | ActCardIdentity _ => mret tt
  end.

(** [action.type === "noteList" || action.type === "receiveNote"]. *)
Definition isNoteListOrReceiveNote (action : GameAction) : bool :=
  match action with
  | ActNoteList _ | ActReceiveNote _ => true
  | _ => false
  end.

(** The suit index and rank of a [play] or [discard] action. *)
Definition playOrDiscardCard (action : GameAction) : option (option Z * Z) :=
  match action with
  | ActPlay a => Some (p_suitIndex a, p_rank a)
  | ActDiscard a => Some (d_suitIndex a, d_rank a)
  | _ => None
  end.

(** The loop of lines 502-512, for the suit of the action. *)
Definition recomputeCardStatus (suitIndex : option Z) (variant : Variant)
  : M unit :=
  forEach (ranks variant) (λ rank,
    state ← getState ;
    suitIndex ← nonNull suitIndex ;
    row ← nonNull (cardStatus state !! suitIndex) ;
    let status :=
      cardRules_status E suitIndex rank (deck state) (playStacks state)
        (playStackDirections state) (playStackStarts state) variant in
    modify (λ s, set_cardStatus
      (<[suitIndex := <[rank := status]> row]> (cardStatus s)) s)).

(** Lines 462-548: the derivations that follow the [switch].  An index that
    is not a number finds nothing in [playStacks] and [cardStatus], so
    [nonNull] on the index stands for the failed lookup. *)
Definition derive (action : GameAction) (playing shadowing : bool)
    (metadata : GameMetadata) (ourNotes : option (list (CardNote T)))
    (variant : Variant) : M unit :=
  (* Use a sub-reducer to calculate changes on cards. *)
  base ← original ;
  state ← getState ;
  modify (set_deck (cardsReducer E (deck base) action state metadata)) ;;
  (* Resolve the stack direction. *)
  match action with
  | ActPlay a =>
      if (variantRules_hasReversedSuits E variant || sudoku variant)
         && bool_decide (p_suitIndex a ≠ Some (-1))
      then
        state ← getState ;
        suitIndex ← nonNull (p_suitIndex a) ;
        playStack ← nonNull (Js.get (playStacks state) suitIndex) ;
        let direction :=
          playStacksRules_direction E suitIndex playStack (deck state) variant in
        modify (λ s, set_playStackDirections
          (<[suitIndex := direction]> (playStackDirections s)) s)
      else mret tt
  | _ => mret tt
  end ;;
  (* In Sudoku variants, resolve the stack starting value. *)
  match action with
  | ActPlay a =>
      if sudoku variant then
        state ← getState ;
        suitIndex ← nonNull (p_suitIndex a) ;
        playStack ← nonNull (Js.get (playStacks state) suitIndex) ;
        modify (λ s, set_playStackStarts
          (<[suitIndex :=
               playStacksRules_stackStartRank E playStack (deck state) variant]>
             (playStackStarts s)) s)
      else mret tt
  | _ => mret tt
  end ;;
  (* Recompute the status of every rank of the suit. *)
  match playOrDiscardCard action with
  | Some (suitIndex, rank) =>
      if bool_decide (suitIndex ≠ Some (-1)) && bool_decide (rank ≠ -1)
      then recomputeCardStatus suitIndex variant
      else mret tt
  | None => mret tt
  end ;;
  (* Use a sub-reducer to calculate the turn. *)
  state ← getState ;
  modify (set_turn (turnReducer E (turn base) action state metadata)) ;;
  (* Use a sub-reducer to calculate some game statistics. *)
  state ← getState ;
  modify (set_stats
    (statsReducer E (stats base) action base state playing shadowing metadata
       ourNotes)) ;;
  (* After stats calculated, compute DDA property on all card states. *)
  modify (λ s, set_deck
    (ddaReducer E (deck s) (doubleDiscard (stats s))
       (currentPlayerIndex (turn s))) s) ;;
  (* Finally, mark cards as known-trash. *)
  modify (λ s, set_deck
    (knownTrashReducer E (deck s) (playStacks s) (playStackDirections s)
       (playStackStarts s) variant) s).

(** Lines 104-549. *)
Definition gameStateReducerFunction (action : GameAction)
    (playing shadowing finished hypothetical : bool) (metadata : GameMetadata)
    (ourNotes : option (list (CardNote T))) : M unit :=
  let variant := getVariant E (variantName (options metadata)) in
  actionBranch action playing shadowing finished hypothetical metadata variant ;;
  if isNoteListOrReceiveNote action
  then mret tt  (* This has no effect, so don't bother computing anything. *)
  else derive action playing shadowing metadata ourNotes variant.

(** What a call of a producer gives its caller: the next state, or the
    exception of the recipe. *)
Inductive Result :=
| Produced (next : GameState)
| Threw (e : Exn).

(** immer's [produce], as a curried producer: the recipe runs on a draft of
    the base state; when it returns, the draft is finalised into the next
    state, and when it throws, the draft is dropped and the exception goes
    on to the caller. *)
Definition produce (recipe : M unit) (base : GameState) : Result :=
  match recipe (createDraft base) with
  | (Return _, draft) => Produced (copy_ draft)
  | (Throw e, _) => Threw e
  end.

(** Lines 99-102. *)
Definition gameStateReducer (state : GameState) (action : GameAction)
    (playing shadowing finished hypothetical : bool) (metadata : GameMetadata)
    (ourNotes : option (list (CardNote T))) : Result :=
  produce
    (gameStateReducerFunction action playing shadowing finished hypothetical
       metadata ourNotes)
    state.

(** ** Specifications of recipes *)

(** [wp m Q X d]: run from the draft [d], the computation [m] either returns
    a value and a draft that satisfy [Q], or throws an exception and leaves a
    draft that satisfy [X]. *)
Definition wp {A} (m : M A) (Q : A → Draft → Prop) (X : Exn → Draft → Prop)
    (d : Draft) : Prop :=
  match m d with
  | (Return a, d') => Q a d'
  | (Throw e, d') => X e d'
  end.

(** The fields that only the [switch] on the action writes: the derivations
    that follow it replace [deck], [playStackDirections], [playStackStarts],
    [cardStatus], [turn] and [stats], and nothing else. *)
Definition core (s : GameState) :=
  (hands s, playStacks s, discardStacks s, clueTokens s, score s, clues s,
   strikes s, hole s, log s, cardsRemainingInTheDeck s,
   numAttemptedCardsPlayed s).

(** What a recipe keeps when it only replaces derived fields: the base of
    the draft and the [core] of its copy. *)
Definition frame (d d' : Draft) : Prop :=
  base_ d' = base_ d ∧ core (copy_ d') = core (copy_ d).

(** The condition of lines 581 and 585, as the two tests of
    [throwItInAHolePlayedOrMisplayed] state it. *)
Definition goesToHole (action : ActionPlayOrDiscard) (variant : Variant)
    (playing shadowing finished : bool) : Prop :=
  throwItInAHole variant = true
  ∧ (playing = true ∨ shadowing = true)
  ∧ finished = false
  ∧ match action with IsPlay _ => True | IsDiscard a => d_failed a = true end.

#[global] Instance goesToHole_dec action variant playing shadowing finished :
  Decision (goesToHole action variant playing shadowing finished).
Proof. unfold goesToHole. destruct action; apply _. Defined.

Definition toAction (action : ActionPlayOrDiscard) : GameAction :=
  match action with IsPlay a => ActPlay a | IsDiscard a => ActDiscard a end.

(** The narration of a [play] or [discard] action. *)
Definition narration (action : ActionPlayOrDiscard) (slot : option Z)
    (touched playing shadowing hypothetical : bool) (metadata : GameMetadata)
  : string :=
  match action with
  | IsPlay a => text_play a slot touched playing shadowing hypothetical metadata
  | IsDiscard a =>
      text_discard a slot touched playing shadowing hypothetical metadata
  end.

(** The stacks that the action pushes the card onto, and the other ones. *)
Definition stacksOf (action : ActionPlayOrDiscard) (s : GameState)
  : list (list CardOrder) :=
  match action with IsPlay _ => playStacks s | IsDiscard _ => discardStacks s end.

Definition otherStacksOf (action : ActionPlayOrDiscard) (s : GameState)
  : list (list CardOrder) :=
  match action with IsPlay _ => discardStacks s | IsDiscard _ => playStacks s end.

(** The last argument of [clueTokensRules.gain]: [playStack.length === 5]
    for a play (line 373), left out for a discard (line 233). *)
Definition playStackComplete (action : ActionPlayOrDiscard)
    (stack : list CardOrder) : bool :=
  match action with
  | IsPlay _ => bool_decide (Js.length stack = 5)
  | IsDiscard _ => false
  end.



(** The row of [cardStatus] that lines 502-512 write is there, or the loop
    is skipped. *)
Definition statusRowReady (suitIndex : option Z) (rank : Z) (s : GameState)
  : Prop :=
  suitIndex = Some (-1) ∨ rank = -1
  ∨ ∃ n, suitIndex = Some n ∧ is_Some (cardStatus s !! n).

(** The exception of lines 224 and 360 for the action. *)
Definition badSuitIndex (action : ActionPlayOrDiscard) : Exn :=
  match action with
  | IsPlay a => BadPlaySuitIndex (p_suitIndex a)
  | IsDiscard a => BadDiscardSuitIndex (d_suitIndex a)
  end.

(** The log grows by one or more entries, each with the turn number
    [turn.turnNum + 1] of the prior state. *)
Definition appendsNarration (s s' : GameState) : Prop :=
  ∃ entries,
    entries ≠ [] ∧ log s' = log s ++ entries
    ∧ Forall (λ entry, log_turn entry = turnNum (turn s) + 1) entries.

(** What each case of the [switch] appends to the log. *)
Definition narrationOf (action : GameAction) (metadata : GameMetadata)
    (s s' : GameState) : Prop :=
  match action with
  | ActClue _ | ActDiscard _ | ActPlay _ | ActGameOver _ =>
      ∃ text,
        log s' = log s ++ [{| log_turn := turnNum (turn s) + 1; log_text := text |}]
  | ActPlayerTimes _ => appendsNarration s s'
  | ActDraw _ =>
      log s' = log s ++
        if deckRules_isInitialDealFinished E (cardsRemainingInTheDeck s - 1)
             metadata
        then [{|
          log_turn := turnNum (turn s) + 1;
          log_text :=
            showString
              (i ← currentPlayerIndex (turn s) ; Js.get (playerNames metadata) i)
            +:+ " goes first" |}]
        else []
  | _ => log s' = log s
  end.

(** The actions of lines 446-452 that line 457 does not stop: the [switch]
    does nothing for them, and the derivations run. *)
Definition leftToSubReducers (action : GameAction) : Prop :=
  match action with
  | ActSetEffMod _ | ActEditNote _ | ActNoteListPlayer _ | ActTurn _
  | ActCardIdentity _ => True
  | _ => False
  end.

(** The suit index of the card of a [play] or [discard] action. *)
Definition suitIndexOf (action : GameAction) : option Z :=
  match playOrDiscardCard action with
  | Some (suitIndex, _) => suitIndex
  | None => None
  end.

(** The conditions of lines 468-472, 486 and 497-501, under which the
    derivations write [playStackDirections], [playStackStarts] and
    [cardStatus]. *)
Definition writesDirections (action : GameAction) (variant : Variant) : bool :=
  match action with
  | ActPlay a =>
      (variantRules_hasReversedSuits E variant || sudoku variant)
      && bool_decide (p_suitIndex a ≠ Some (-1))
  | _ => false
  end.

Definition writesStarts (action : GameAction) (variant : Variant) : bool :=
  match action with ActPlay _ => sudoku variant | _ => false end.

Definition writesStatus (action : GameAction) : bool :=
  match playOrDiscardCard action with
  | Some (suitIndex, rank) =>
      bool_decide (suitIndex ≠ Some (-1)) && bool_decide (rank ≠ -1)
  | None => false
  end.

End Reducer.

Arguments Return {A} a.
Arguments Throw {A} e.
Arguments Externals T : clear implicits.
Arguments GameState T : clear implicits.
Arguments GameAction T : clear implicits.
Arguments GameMetadata T : clear implicits.

(** ** A small instance

    Cards that only know whether a clue touched them, a variant table with
    the base game and a hole variant, and sub-reducers that keep what they
    are given.  It is used to run the reducer on concrete states. *)

Module Instance.

Definition types : ExternalTypes := {|
  CardState := bool;
  CardNote := unit;
  PaceRisk := unit;
  StackDirection := bool;
  CardStatus := Z;
  CharacterAssignments := unit;
  TurnRest := unit;
  OptionsRest := unit;
  OtherAction := unit;
|}.

Definition baseVariant (variantName : string) (hole : bool) : Variant := {|
  name := variantName;
  suits := ["Red"; "Yellow"; "Green"; "Blue"; "Purple"];
  ranks := [1; 2; 3; 4; 5];
  specialRank := -1;
  criticalRank := -1;
  clueStarved := false;
  colorCluesTouchNothing := false;
  rankCluesTouchNothing := false;
  alternatingClues := false;
  cowAndPig := false;
  duck := false;
  oddsAndEvens := false;
  synesthesia := false;
  upOrDown := false;
  throwItInAHole := hole;
  funnels := false;
  chimneys := false;
  sudoku := false;
|}.

Definition maxClueTokens : Z := 8.

Definition gain (action : ActionPlayOrDiscard) (clueTokens : Z)
    (variant : Variant) (playStackComplete : bool) : Z :=
  let generates :=
    match action with
    | IsPlay _ => playStackComplete
    | IsDiscard a => negb (d_failed a)
    end in
  if generates && bool_decide (clueTokens < maxClueTokens)
  then clueTokens + 1 else clueTokens.

(** The oldest card that no clue touched, or the newest card. *)
Fixpoint chopFrom (i : Z) (hand : list (option CardOrder)) (deck : list bool)
  : option Z :=
  match hand with
  | [] => None
  | order :: rest =>
      match order ≫= Js.get deck with
      | Some false => Some i
      | _ => chopFrom (i + 1) rest deck
      end
  end.

Definition chopIndex (hand : list (option CardOrder)) (deck : list bool) : Z :=
  default (Js.length hand - 1) (chopFrom 0 hand deck).

Definition externals : Externals types := {|
  getVariant := λ variantName,
    baseVariant variantName (String.eqb variantName "Throw It in a Hole (6 Suits)");
  clueTokensRules_getAdjusted := λ n variant,
    if clueStarved variant then 2 * n else n;
  clueTokensRules_gain := gain;
  cardRules_isClued := λ card : CardState types, card;
  cardRules_status := λ suitIndex rank _ _ _ _ _, 0;
  deckRules_isInitialDealFinished := λ remaining _, bool_decide (remaining = 40);
  handRules_chopIndex := chopIndex;
  playStacksRules_direction := λ _ _ _ _, true;
  playStacksRules_stackStartRank := λ _ _ _, None;
  variantRules_hasReversedSuits := λ _, false;
  cardsReducer := λ deck _ _ _, deck;
  turnReducer := λ turn _ _ _, turn;
  statsReducer := λ stats _ _ _ _ _ _ _, stats;
  ddaReducer := λ deck _ _, deck;
  knownTrashReducer := λ deck _ _ _ _, deck;
  getCardName := λ suitIndex rank variant,
    showNumber suitIndex +:+ "/" +:+ pretty rank;
  getCardSlot := λ order hand,
    let i := Js.indexOf hand (Some order) in
    if decide (i = -1) then None else Some (Js.length hand - i);
  getCharacterNameForPlayer := λ _ _, "";
  getClueName := λ _ value _ _, pretty value;
  GameMetadata_getPlayerName := getPlayerName;
  utils_millisecondsToClockString := millisecondsToClockString;
|}.

Definition metadata (variantName : string) (cycle : bool) : GameMetadata types := {|
  options := {|
    variantName := variantName;
    options_cardCycle := cycle;
    timed := false;
    optionsRest := tt : OptionsRest types |};
  playerNames := ["Alice"; "Bob"];
  characterAssignments := tt : CharacterAssignments types;
|}.

Definition noStats : @StatsState types := {|
  maxScore := 25;
  maxScorePerStack := [5; 5; 5; 5; 5];
  pace := None;
  paceRisk := tt : PaceRisk types;
  finalRoundEffectivelyStarted := false;
  cardsGotten := 0;
  potentialCluesLost := 0;
  cluesStillUsable := None;
  cluesStillUsableNotRounded := None;
  cardsGottenByNotes := None;
  doubleDiscard := None;
  numSubsequentBlindPlays := 0;
  numSubsequentMisplays := 0;
  stats_numAttemptedCardsPlayed := 0;
|}.

(** A hand that holds the cards of the given orders. *)
Definition cards (orders : list CardOrder) : list (option CardOrder) :=
  Some <$> orders.

(** Two players: Alice holds the cards 0-2 and Bob the cards 3-5; no clue
    has touched a card (the deck lists ten of them); [segment] is the
    segment of the turn, [None] before the end of the deal. *)
Definition state (segment : option Z) : GameState types := {|
  deck := replicate 10 false : list (CardState types);
  hands := [cards [0; 1; 2]; cards [3; 4; 5]];
  playStacks := [[]; []; []; []; []];
  discardStacks := [[]; []; []; []; []];
  playStackDirections := ∅;
  playStackStarts := ∅;
  cardStatus := list_to_map ((λ i, (i, ∅)) <$> [0; 1; 2; 3; 4]);
  clueTokens := 8;
  score := 0;
  clues := [];
  strikes := [];
  hole := [];
  turn := {| segment := segment; turnNum := 0; currentPlayerIndex := Some 0;
             turnRest := tt : TurnRest types |};
  stats := noStats;
  log := [];
  cardsRemainingInTheDeck := 40;
  numAttemptedCardsPlayed := 0;
|}.


Definition noVariant : GameMetadata types := metadata "No Variant" false.

Definition holeVariant : GameMetadata types :=
  metadata "Throw It in a Hole (6 Suits)" false.

Definition cycling : GameMetadata types := metadata "No Variant" true.

(** Alice plays the card 1 as the first (or fifth) card of suit 0. *)
Definition playCard (rank : Z) : ActionPlay :=
  {| p_playerIndex := 0; p_order := 1; p_suitIndex := Some 0; p_rank := rank |}.

(** Alice plays the card 1, whose suit and rank she does not know. *)
Definition playUnknown : ActionPlay :=
  {| p_playerIndex := 0; p_order := 1; p_suitIndex := Some (-1); p_rank := -1 |}.

(** Alice discards the card [order], a 3 of suit 2. *)
Definition discardCard (order : CardOrder) : ActionDiscard :=
  {| d_playerIndex := 0; d_order := order; d_suitIndex := Some 2; d_rank := 3;
     d_failed := false |}.

(** Alice tells Bob about his two 3s. *)
Definition clueCards : ActionClue :=
  {| c_clue := {| msg_type := Rank; msg_value := 3 |}; c_giver := 0;
     c_list := [3; 4]; c_target := 1; c_turn := 0; c_ignoreNegative := false |}.

Definition strikeCard : ActionStrike :=
  {| s_num := 1; s_turn := 0; s_order := 1 |}.

(** The reducer for a game that is being played. *)
Definition reduce (metadata : GameMetadata types) (s : GameState types)
    (action : GameAction types) : Result :=
  gameStateReducer externals s action true false false false metadata None.

(** Alice tells a player who is not at the table about two cards. *)
Definition clueNobody : ActionClue :=
  {| c_clue := {| msg_type := Rank; msg_value := 3 |}; c_giver := 0;
     c_list := [3; 4]; c_target := 5; c_turn := 0; c_ignoreNegative := false |}.

(** A player who is not at the table plays the card 1. *)
Definition playStranger : ActionPlay :=
  {| p_playerIndex := 7; p_order := 1; p_suitIndex := Some 0; p_rank := 1 |}.

(** Alice misplays the card 1, whose suit and rank she does not know. *)
Definition misplayUnknown : ActionDiscard :=
  {| d_playerIndex := 0; d_order := 1; d_suitIndex := Some (-1); d_rank := -1;
     d_failed := true |}.

(** Bob draws the card 6. *)
Definition drawCard : ActionDraw :=
  {| dr_playerIndex := 1; dr_order := 6; dr_suitIndex := Some (-1);
     dr_rank := -1 |}.

(** The deal lacks one card: the next [draw] ends it. *)
Definition lastDeal : GameState types :=
  set_cardsRemainingInTheDeck 41 (state None).

(** The deal lacks one card and nobody is the current player. *)
Definition lastDealNobody : GameState types :=
  set_turn {| segment := None; turnNum := 0; currentPlayerIndex := None;
              turnRest := tt : TurnRest types |} lastDeal.

(** The instance in which every player has the character [Quacker]. *)
Definition quackers : Externals types := {|
  getVariant := getVariant externals;
  clueTokensRules_getAdjusted := clueTokensRules_getAdjusted externals;
  clueTokensRules_gain := clueTokensRules_gain externals;
  cardRules_isClued := cardRules_isClued externals;
  cardRules_status := cardRules_status externals;
  deckRules_isInitialDealFinished := deckRules_isInitialDealFinished externals;
  handRules_chopIndex := handRules_chopIndex externals;
  playStacksRules_direction := playStacksRules_direction externals;
  playStacksRules_stackStartRank := playStacksRules_stackStartRank externals;
  variantRules_hasReversedSuits := variantRules_hasReversedSuits externals;
  cardsReducer := cardsReducer externals;
  turnReducer := turnReducer externals;
  statsReducer := statsReducer externals;
  ddaReducer := ddaReducer externals;
  knownTrashReducer := knownTrashReducer externals;
  getCardName := getCardName externals;
  getCardSlot := getCardSlot externals;
  getCharacterNameForPlayer := λ _ _, "Quacker";
  getClueName := getClueName externals;
  GameMetadata_getPlayerName := GameMetadata_getPlayerName externals;
  utils_millisecondsToClockString := utils_millisecondsToClockString externals;
|}.

(** Alice's clue to Bob with the touched cards listed in the other order. *)
Definition clueCardsReversed : ActionClue :=
  {| c_clue := {| msg_type := Rank; msg_value := 3 |}; c_giver := 0;
     c_list := [4; 3]; c_target := 1; c_turn := 0; c_ignoreNegative := false |}.

(** Bob discards the card 6, a 3 of suit 2. *)
Definition discardDrawn : ActionDiscard :=
  {| d_playerIndex := 1; d_order := 6; d_suitIndex := Some 2; d_rank := 3;
     d_failed := false |}.

(** The instance in which the chop index is 7, beyond every hand. *)
Definition chopBeyond : Externals types := {|
  getVariant := getVariant externals;
  clueTokensRules_getAdjusted := clueTokensRules_getAdjusted externals;
  clueTokensRules_gain := clueTokensRules_gain externals;
  cardRules_isClued := cardRules_isClued externals;
  cardRules_status := cardRules_status externals;
  deckRules_isInitialDealFinished := deckRules_isInitialDealFinished externals;
  handRules_chopIndex := λ _ _, 7;
  playStacksRules_direction := playStacksRules_direction externals;
  playStacksRules_stackStartRank := playStacksRules_stackStartRank externals;
  variantRules_hasReversedSuits := variantRules_hasReversedSuits externals;
  cardsReducer := cardsReducer externals;
  turnReducer := turnReducer externals;
  statsReducer := statsReducer externals;
  ddaReducer := ddaReducer externals;
  knownTrashReducer := knownTrashReducer externals;
  getCardName := getCardName externals;
  getCardSlot := getCardSlot externals;
  getCharacterNameForPlayer := getCharacterNameForPlayer externals;
  getClueName := getClueName externals;
  GameMetadata_getPlayerName := GameMetadata_getPlayerName externals;
  utils_millisecondsToClockString := utils_millisecondsToClockString externals;
|}.

End Instance.
(** * Properties *)

(** ** Facts about the array operations *)

Module JsFacts.

Lemma get_Some {A} (xs : list A) i x :
  Js.get xs i = Some x ↔ 0 ≤ i ∧ xs !! Z.to_nat i = Some x.
Proof.
  unfold Js.get. destruct (decide (0 ≤ i)) as [Hi|Hi]; [tauto|].
  split; [done|]. by intros [? _].
Qed.

Lemma get_lt {A} (xs : list A) i x :
  Js.get xs i = Some x → 0 ≤ i < Js.length xs.
Proof.
  intros [Hi Hx]%get_Some. apply lookup_lt_Some in Hx. unfold Js.length. lia.
Qed.


Lemma insert_id {A} (xs : list A) i x :
  Js.get xs i = Some x → <[Z.to_nat i := x]> xs = xs.
Proof. intros [Hi Hx]%get_Some. by apply list_insert_id. Qed.

Lemma indexOf_range {A} `{EqDecision A} (xs : list A) (x : A) : -1 ≤ Js.indexOf xs x < Js.length xs.
Proof.
  unfold Js.length. induction xs as [|y ys IH]; cbn; [lia|].
  destruct (decide (y = x)); [lia|].
  destruct (decide (Js.indexOf ys x = -1)); lia.
Qed.

Lemma indexOf_absent {A} `{EqDecision A} (xs : list A) (x : A) : Js.indexOf xs x = -1 ↔ x ∉ xs.
Proof.
  induction xs as [|y ys IH]; cbn.
  - split; [intros _; apply not_elem_of_nil|done].
  - rewrite not_elem_of_cons. pose proof (indexOf_range ys x).
    destruct (decide (y = x)) as [->|Hne].
    + split; [lia|]. by intros [? _].
    + destruct (decide (Js.indexOf ys x = -1)) as [Heq|Hneq].
      * split; [|done]. intros _. split; [done|]. by apply IH.
      * split; [lia|]. intros [_ Hnot]. by apply IH in Hnot.
Qed.

Lemma indexOf_found {A} `{EqDecision A} (xs : list A) (x : A) :
  Js.indexOf xs x ≠ -1 → xs !! Z.to_nat (Js.indexOf xs x) = Some x.
Proof.
  induction xs as [|y ys IH]; cbn; [done|].
  pose proof (indexOf_range ys x).
  destruct (decide (y = x)) as [->|Hne]; [done|].
  destruct (decide (Js.indexOf ys x = -1)) as [Heq|Hneq]; [done|].
  intros _. replace (Z.to_nat (Js.indexOf ys x + 1)) with (S (Z.to_nat (Js.indexOf ys x))) by lia.
  by apply IH.
Qed.

(** Within the array, [splice(i, 1)] takes out the element at [i]. *)
Lemma splice1_inside {A} (xs : list A) i x :
  Js.get xs i = Some x → Js.splice1 xs i = ([x], delete (Z.to_nat i) xs).
Proof.
  intros Hget. pose proof (get_lt _ _ _ Hget) as Hlt.
  apply get_Some in Hget as [Hi Hx].
  unfold Js.splice1, Js.spliceStart. destruct (decide (i < 0)); [lia|].
  replace (Z.to_nat (i `min` Js.length xs)) with (Z.to_nat i) by lia.
  rewrite delete_take_drop. f_equal.
  by rewrite (drop_S _ _ _ Hx).
Qed.

End JsFacts.

Section Properties.

Context {T : ExternalTypes} (E : Externals T).

Implicit Types (d : @Draft T) (s : GameState T) (action : GameAction T).

(** ** Rules for [wp] *)

Lemma wp_ret {A} (a : A) Q X d : Q a d → wp (mret a) Q X d.
Proof. done. Qed.

Lemma wp_throw {A} e (Q : A → _) X d : X e d → wp (throw e) Q X d.
Proof. done. Qed.

Lemma wp_bind {A B} (m : M A) (f : A → M B) Q X d :
  wp m (λ a d', wp (f a) Q X d') X d → wp (m ≫= f) Q X d.
Proof.
  unfold wp, mbind, M_bind. destruct (m d) as [[a|e] d']; done.
Qed.

Lemma wp_getState Q X d : Q (copy_ d) d → wp getState Q X d.
Proof. done. Qed.

Lemma wp_original Q X d : Q (base_ d) d → wp original Q X d.
Proof. done. Qed.

Lemma wp_modify f Q X d :
  Q tt {| base_ := base_ d; copy_ := f (copy_ d) |} → wp (modify f) Q X d.
Proof. done. Qed.

Lemma wp_nonNull {A} (x : option A) Q X d :
  (∀ a, x = Some a → Q a d) → (x = None → X TypeError d) →
  wp (nonNull x) Q X d.
Proof. destruct x; unfold wp; cbn; auto. Qed.

Lemma wp_liftCompletion {A} (c : Completion A) Q X d :
  (∀ a, c = Return a → Q a d) → (∀ e, c = Throw e → X e d) →
  wp (liftCompletion c) Q X d.
Proof. destruct c; unfold wp; cbn; auto. Qed.

Lemma wp_mono {A} (m : M A) (Q Q' : A → _) (X X' : Exn → _) d :
  wp m Q X d → (∀ a d', Q a d' → Q' a d') → (∀ e d', X e d' → X' e d') →
  wp m Q' X' d.
Proof. unfold wp. destruct (m d) as [[a|e] d']; auto. Qed.

(** A loop keeps an invariant that every round keeps. *)
Lemma wp_forEach {A} (I : Draft → Prop) (xs : list A) body Q X d :
  I d →
  (∀ x d', x ∈ xs → I d' → wp (body x) (λ _, I) X d') →
  (∀ d', I d' → Q tt d') →
  wp (forEach xs body) Q X d.
Proof.
  intros HI Hbody HQ. revert d HI.
  induction xs as [|x xs IH]; intros d HI; cbn.
  - by apply wp_ret, HQ.
  - apply wp_bind. eapply wp_mono.
    + apply Hbody; [left|done].
    + intros [] d' HI'. apply IH; [|done].
      intros y d'' Hy. apply Hbody. by right.
    + done.
Qed.

Lemma wp_Return {A} (m : M A) Q X d a d' :
  wp m Q X d → m d = (Return a, d') → Q a d'.
Proof. unfold wp. intros H Heq. by rewrite Heq in H. Qed.

Lemma wp_Throw {A} (m : M A) Q X d e d' :
  wp m Q X d → m d = (Throw e, d') → X e d'.
Proof. unfold wp. intros H Heq. by rewrite Heq in H. Qed.

(** ** The hole test *)

Lemma not_goesToHole_bool (action : ActionPlayOrDiscard) variant playing
    shadowing finished :
  ¬ goesToHole action variant playing shadowing finished →
  negb (throwItInAHole variant) || negb playing && negb shadowing || finished
    = false →
  match action with IsDiscard a => d_failed a | IsPlay _ => true end = false.
Proof.
  unfold goesToHole. intros Hn Hb.
  destruct (throwItInAHole variant), playing, shadowing, finished,
    action as [a|a]; try destruct (d_failed a); cbn in *; try done;
    exfalso; apply Hn; auto.
Qed.

Lemma goesToHole_bool (action : ActionPlayOrDiscard) variant playing
    shadowing finished :
  goesToHole action variant playing shadowing finished →
  negb (throwItInAHole variant) || negb playing && negb shadowing || finished
    = false
  ∧ match action with IsDiscard a => d_failed a | IsPlay _ => true end = true.
Proof.
  unfold goesToHole. intros (-> & Hp & -> & Ha). split.
  - destruct playing, shadowing; cbn; try done. by destruct Hp.
  - by destruct action.
Qed.

(** The hole test returns whether [goesToHole] holds, and writes the hole
    and the counter when it does. *)
Lemma wp_hole (pd : ActionPlayOrDiscard) variant playing shadowing finished
    Q X d :
  (if decide (goesToHole pd variant playing shadowing finished)
   then Q true {|
     base_ := base_ d;
     copy_ :=
       set_numAttemptedCardsPlayed (numAttemptedCardsPlayed (copy_ d) + 1)
         (set_hole (Js.push (hole (copy_ d)) (pd_order pd)) (copy_ d)) |}
   else Q false d) →
  wp (throwItInAHolePlayedOrMisplayed pd variant playing shadowing finished)
    Q X d.
Proof.
  unfold throwItInAHolePlayedOrMisplayed.
  destruct (decide (goesToHole pd variant playing shadowing finished))
    as [Hhole|Hnot]; intros HQ.
  - by destruct (goesToHole_bool _ _ _ _ _ Hhole) as [-> ->].
  - destruct (_ || finished) eqn:Hb; [done|].
    by rewrite (not_goesToHole_bool _ _ _ _ _ Hnot Hb).
Qed.

(** Reading a field of a state that was written field by field. *)
Ltac state_simpl :=
  cbn [copy_ base_ negb
       deck hands playStacks discardStacks playStackDirections
       playStackStarts cardStatus clueTokens score clues strikes hole
       turn stats log cardsRemainingInTheDeck numAttemptedCardsPlayed
       set_deck set_hands set_playStacks set_discardStacks
       set_playStackDirections set_playStackStarts set_cardStatus
       set_clueTokens set_score set_clues set_strikes set_hole set_turn
       set_stats set_log set_cardsRemainingInTheDeck
       set_numAttemptedCardsPlayed] in *.

(** One step of symbolic execution of a recipe. *)
Ltac wp_step :=
  lazymatch goal with
  | |- wp (mret _) _ _ _ => apply wp_ret
  | |- wp (throw _) _ _ _ => apply wp_throw
  | |- wp (_ ≫= _) _ _ _ => apply wp_bind
  | |- wp getState _ _ _ => apply wp_getState
  | |- wp original _ _ _ => apply wp_original
  | |- wp (modify _) _ _ _ => apply wp_modify
  | |- wp (pushLog _) _ _ _ => apply wp_modify
  | |- wp (throwItInAHolePlayedOrMisplayed _ _ _ _ _) _ _ _ =>
      apply wp_hole; case_decide
  | |- wp (nonNull _) _ _ _ => apply wp_nonNull; [intros ? ?|intros ?]
  | |- wp (liftCompletion _) _ _ _ =>
      apply wp_liftCompletion; [intros ? ?|intros ? ?]
  | |- wp (if true then _ else _) _ _ _ => cbv iota
  | |- wp (if false then _ else _) _ _ _ => cbv iota
  | |- wp (if ?b then _ else _) _ _ _ => destruct b eqn:?
  | |- wp (match ?x with _ => _ end) _ _ _ => destruct x eqn:?
  end; cbv beta; state_simpl.

(** ** The derivations keep the core *)

(** The status loop and the derivations keep the base of the draft and the
    core of its copy, and a [TypeError] is the only exception they throw. *)
Lemma recomputeCardStatus_frame suitIndex variant d :
  wp (recomputeCardStatus E suitIndex variant)
     (λ _ d', frame d d')
     (λ e d', e = TypeError ∧ frame d d') d.
Proof.
  apply (wp_forEach (frame d)); [done| |done].
  intros rank d' _ [Hb Hc]. repeat wp_step; done.
Qed.

Lemma derive_frame action playing shadowing metadata ourNotes variant d :
  wp (derive E action playing shadowing metadata ourNotes variant)
     (λ _ d', frame d d')
     (λ e d', e = TypeError ∧ frame d d') d.
Proof.
  unfold derive.
  repeat wp_step; try done.
  all: eapply wp_mono; [apply recomputeCardStatus_frame| |]; cbv beta.
  all: try (intros [] d' [Hb Hc]; repeat wp_step; split; [exact Hb|exact Hc]).
  all: intros e d' [-> [Hb Hc]]; split; [done|split; [exact Hb|exact Hc]].
Qed.

(** ** The reducer, by the outcome of its two halves *)

(** The reducer unfolded: the [switch], then the derivations unless the
    action is [noteList] or [receiveNote]. *)
Lemma gameStateReducer_run s action playing shadowing finished hypothetical
    metadata ourNotes :
  let variant := getVariant E (variantName (options metadata)) in
  gameStateReducer E s action playing shadowing finished hypothetical metadata
    ourNotes =
  match actionBranch E action playing shadowing finished hypothetical metadata
          variant (createDraft s) with
  | (Throw e, _) => Threw e
  | (Return _, d1) =>
      if isNoteListOrReceiveNote action then Produced (copy_ d1)
      else
        match derive E action playing shadowing metadata ourNotes variant d1 with
        | (Throw e, _) => Threw e
        | (Return _, d2) => Produced (copy_ d2)
        end
  end.
Proof.
  intros variant.
  unfold gameStateReducer, produce, gameStateReducerFunction, mbind, M_bind.
  fold variant.
  destruct (actionBranch _ _ _ _ _ _ _ _ _) as [[[]|e] d1]; [|done].
  destruct (isNoteListOrReceiveNote action); [done|].
  by destruct (derive _ _ _ _ _ _ _ _) as [[[]|e] d2].
Qed.

(** A state that the reducer yields has the core of the draft that the
    [switch] left. *)
Lemma gameStateReducer_Produced s action playing shadowing finished
    hypothetical metadata ourNotes s' :
  gameStateReducer E s action playing shadowing finished hypothetical metadata
    ourNotes = Produced s' →
  ∃ d1,
    actionBranch E action playing shadowing finished hypothetical metadata
      (getVariant E (variantName (options metadata))) (createDraft s)
    = (Return tt, d1)
    ∧ core s' = core (copy_ d1).
Proof.
  rewrite gameStateReducer_run. cbv zeta.
  destruct (actionBranch _ _ _ _ _ _ _ _ _) as [[[]|e] d1]; [|done].
  destruct (isNoteListOrReceiveNote action).
  { intros [= <-]. by exists d1. }
  pose proof (derive_frame action playing shadowing metadata ourNotes
    (getVariant E (variantName (options metadata))) d1) as Hfr.
  unfold wp in Hfr.
  destruct (derive _ _ _ _ _ _ _ _) as [[[]|e] d2]; [|done].
  intros [= <-]. exists d1. split; [done|]. apply Hfr.
Qed.

(** An exception of the reducer is an exception of the [switch], or a
    [TypeError] of the derivations. *)
Lemma gameStateReducer_Threw s action playing shadowing finished hypothetical
    metadata ourNotes e :
  gameStateReducer E s action playing shadowing finished hypothetical metadata
    ourNotes = Threw e →
  (∃ d1,
     actionBranch E action playing shadowing finished hypothetical metadata
       (getVariant E (variantName (options metadata))) (createDraft s)
     = (Throw e, d1))
  ∨ e = TypeError.
Proof.
  rewrite gameStateReducer_run. cbv zeta.
  destruct (actionBranch _ _ _ _ _ _ _ _ _) as [[[]|e'] d1].
  - destruct (isNoteListOrReceiveNote action); [done|].
    pose proof (derive_frame action playing shadowing metadata ourNotes
      (getVariant E (variantName (options metadata))) d1) as Hfr.
    unfold wp in Hfr.
    destruct (derive _ _ _ _ _ _ _ _) as [[[]|e'] d2]; [done|].
    intros [= <-]. right. apply Hfr.
  - intros [= <-]. left. by exists d1.
Qed.

(** ** The recipe never writes to the base of its draft *)

Lemma actionBranch_base action playing shadowing finished hypothetical
    metadata variant d :
  wp (actionBranch E action playing shadowing finished hypothetical metadata
        variant)
     (λ _ d', base_ d' = base_ d) (λ _ d', base_ d' = base_ d) d.
Proof.
  unfold actionBranch. repeat wp_step; try done.
  apply (wp_forEach (λ d', base_ d' = base_ d)); [done| |].
  - intros [i time] d' _ Hb. by repeat wp_step.
  - intros d' Hb. by repeat wp_step.
Qed.

Lemma gameStateReducerFunction_base action playing shadowing finished
    hypothetical metadata ourNotes d :
  wp (gameStateReducerFunction E action playing shadowing finished
        hypothetical metadata ourNotes)
     (λ _ d', base_ d' = base_ d) (λ _ d', base_ d' = base_ d) d.
Proof.
  unfold gameStateReducerFunction. cbv zeta. apply wp_bind.
  eapply wp_mono; [apply actionBranch_base| |done].
  intros [] d1 Hb. cbv beta. wp_step; [done|].
  eapply wp_mono; [apply derive_frame| |]; cbv beta.
  - intros [] d2 [Hb2 _]. congruence.
  - intros e d2 (_ & Hb2 & _). congruence.
Qed.

(** ** What the cases of the [switch] do *)

Lemma play_branch_score (a : ActionPlay) playing shadowing finished
    hypothetical metadata variant d :
  wp (actionBranch E (ActPlay a) playing shadowing finished hypothetical
        metadata variant)
     (λ _ d', score (copy_ d') = score (copy_ d) + 1) (λ _ _, True) d.
Proof. unfold actionBranch. repeat wp_step; done. Qed.


(** A computation whose exceptions are all excluded returns. *)
Lemma wp_returns {A} (m : M A) Q X d :
  wp m Q X d → (∀ e d', ¬ X e d') → ∃ a d', m d = (Return a, d') ∧ Q a d'.
Proof.
  unfold wp. destruct (m d) as [[a|e] d']; [by eauto|]. intros HX Hno.
  by destruct (Hno e d').
Qed.

(** [removeFromHand] by whether the card is in the hand. *)
Lemma removeFromHand_absent hand order :
  Some order ∉ hand → removeFromHand hand order = (None, hand).
Proof.
  intros Habs%JsFacts.indexOf_absent. unfold removeFromHand.
  by destruct (decide (Js.indexOf hand (Some order) ≠ -1)).
Qed.

Lemma removeFromHand_found hand order :
  Some order ∈ hand →
  removeFromHand hand order
  = (Some (Js.length hand - Js.indexOf hand (Some order)),
     delete (Z.to_nat (Js.indexOf hand (Some order))) hand).
Proof.
  intros Hin. unfold removeFromHand.
  destruct (decide (Js.indexOf hand (Some order) ≠ -1)) as [Hfound|Habs].
  - pose proof (JsFacts.indexOf_range hand (Some order)).
    rewrite (JsFacts.splice1_inside hand _ (Some order)); [done|].
    apply JsFacts.get_Some. split; [lia|]. by apply JsFacts.indexOf_found.
  - destruct (decide (Js.indexOf hand (Some order) = -1)) as [Heq|]; [|done].
    by apply JsFacts.indexOf_absent in Heq.
Qed.

(** What the [play] and [discard] cases do to the draft. *)
Lemma playOrDiscard_branch (pd : ActionPlayOrDiscard) playing shadowing
    finished hypothetical metadata variant d :
  let s := copy_ d in
  let order := pd_order pd in
  wp (actionBranch E (toAction pd) playing shadowing finished hypothetical
        metadata variant)
    (λ _ d', let s' := copy_ d' in
       ∃ hand card,
         Js.get (hands s) (pd_playerIndex pd) = Some hand
         ∧ Js.get (deck s) order = Some card
         ∧ hands s'
           = <[Z.to_nat (pd_playerIndex pd) := (removeFromHand hand order).2]>
               (hands s)
         ∧ log s' = log s ++ [{|
             log_turn := turnNum (turn s) + 1;
             log_text :=
               narration E pd (removeFromHand hand order).1
                 (cardRules_isClued E card) playing shadowing hypothetical
                 metadata |}]
         ∧ cardStatus s' = cardStatus s
         ∧ otherStacksOf pd s' = otherStacksOf pd s
         ∧ if decide (goesToHole pd variant playing shadowing finished)
           then
             hole s' = hole s ++ [order]
             ∧ numAttemptedCardsPlayed s' = numAttemptedCardsPlayed s + 1
             ∧ stacksOf pd s' = stacksOf pd s
             ∧ clueTokens s' = clueTokens s
           else
             hole s' = hole s
             ∧ numAttemptedCardsPlayed s' = numAttemptedCardsPlayed s
             ∧ ∃ suitIndex stack,
                 pd_suitIndex pd = Some suitIndex ∧ 0 ≤ suitIndex
                 ∧ Js.get (stacksOf pd s) suitIndex = Some stack
                 ∧ stacksOf pd s'
                   = <[Z.to_nat suitIndex := Js.push stack order]> (stacksOf pd s)
                 ∧ clueTokens s'
                   = clueTokensRules_gain E pd (clueTokens s) variant
                       (playStackComplete pd (Js.push stack order)))
    (λ e _,
       (e = TypeError
        ∧ (Js.get (hands s) (pd_playerIndex pd) = None
           ∨ Js.get (deck s) order = None
           ∨ ¬ goesToHole pd variant playing shadowing finished
             ∧ ∃ suitIndex,
                 pd_suitIndex pd = Some suitIndex ∧ 0 ≤ suitIndex
                 ∧ Js.get (stacksOf pd s) suitIndex = None))
       ∨ (e = badSuitIndex pd
          ∧ ¬ goesToHole pd variant playing shadowing finished
          ∧ ∀ n, pd_suitIndex pd = Some n → n < 0))
    d.
Proof.
  intros s order.
  destruct pd as [a|a]; cbn [toAction pd_playerIndex pd_suitIndex pd_order] in *;
    unfold actionBranch.
  all: apply wp_bind, wp_getState; cbv beta.
  all: apply wp_bind, wp_nonNull;
    [intros hand Hhand|intros Hhand; left; split; [done|by left]].
  all: fold order; destruct (removeFromHand hand order) as [slot hand'] eqn:Hrem.
  all: repeat wp_step.
  all: try (left; split; [done|]; right; by left).
  all: try (left; split; [done|]; right; right; split; [done|];
            eexists; by repeat split; [lia|]).
  all: try (case_decide; [|done]).
  all: try (case_decide; [done|]).
  all: try (eexists _, _; split; [eassumption|]; split; [eassumption|];
            rewrite Hrem; cbn; repeat split; try done).
  all: try (eexists _, _; repeat split; try done; lia).
  all: right; (split; [cbn; congruence|]); (split; [done|]).
  all: intros n ?; simplify_eq; lia.
Qed.

(** ** When the derivations return *)

(** The status loop returns when the row of the suit is there. *)
Lemma recomputeCardStatus_returns suitIndex variant d :
  is_Some (cardStatus (copy_ d) !! suitIndex) →
  wp (recomputeCardStatus E (Some suitIndex) variant)
     (λ _ _, True) (λ _ _, False) d.
Proof.
  intros Hrow.
  apply (wp_forEach (λ d', is_Some (cardStatus (copy_ d') !! suitIndex)));
    [done| |done].
  intros rank d' _ [row Hrow']. repeat wp_step; simplify_eq.
  rewrite lookup_insert_eq. by eexists.
Qed.

(** After a [discard], the derivations return when [statusRowReady]
    holds. *)
Lemma derive_discard_returns (a : ActionDiscard) playing shadowing metadata
    ourNotes variant d :
  statusRowReady (d_suitIndex a) (d_rank a) (copy_ d) →
  wp (derive E (ActDiscard a) playing shadowing metadata ourNotes variant)
     (λ _ _, True) (λ _ _, False) d.
Proof.
  intros Hready. unfold derive. repeat wp_step; try done.
  cbn in Heqo. simplify_eq.
  apply andb_true_iff in Heqb as [Hs Hr].
  apply bool_decide_eq_true in Hs, Hr.
  destruct Hready as [?|[?|(n & Hn & Hrow)]]; [done|done|].
  rewrite Hn. eapply wp_mono; [by apply recomputeCardStatus_returns| |done].
  intros [] d' _. by repeat wp_step.
Qed.

(** An action that is neither a play nor a discard: the derivations return. *)
Lemma derive_returns action playing shadowing metadata ourNotes variant d :
  playOrDiscardCard action = None →
  wp (derive E action playing shadowing metadata ourNotes variant)
     (λ _ _, True) (λ _ _, False) d.
Proof.
  intros Hnone. unfold derive. rewrite Hnone.
  destruct action; try done; by repeat wp_step.
Qed.

(** The reducer yields a state when both halves return. *)
Lemma gameStateReducer_returns s action playing shadowing finished
    hypothetical metadata ourNotes d1 :
  let variant := getVariant E (variantName (options metadata)) in
  actionBranch E action playing shadowing finished hypothetical metadata
    variant (createDraft s) = (Return tt, d1) →
  wp (derive E action playing shadowing metadata ourNotes variant)
    (λ _ _, True) (λ _ _, False) d1 →
  ∃ s',
    gameStateReducer E s action playing shadowing finished hypothetical
      metadata ourNotes = Produced s'
    ∧ core s' = core (copy_ d1).
Proof.
  intros variant Hrun Hderive.
  rewrite gameStateReducer_run. cbv zeta. fold variant. rewrite Hrun.
  destruct (isNoteListOrReceiveNote action); [by eexists|].
  pose proof (derive_frame action playing shadowing metadata ourNotes
    variant d1) as Hfr.
  unfold wp in Hderive, Hfr.
  destruct (derive _ _ _ _ _ _ _ _) as [[[]|e] d2]; [|done].
  eexists. split; [done|]. apply Hfr.
Qed.

(** ** More on the cases of the [switch] *)

Lemma core_fields s1 s2 :
  core s1 = core s2 →
  hands s1 = hands s2 ∧ playStacks s1 = playStacks s2
  ∧ discardStacks s1 = discardStacks s2 ∧ clueTokens s1 = clueTokens s2
  ∧ score s1 = score s2 ∧ clues s1 = clues s2 ∧ strikes s1 = strikes s2
  ∧ hole s1 = hole s2 ∧ log s1 = log s2
  ∧ cardsRemainingInTheDeck s1 = cardsRemainingInTheDeck s2
  ∧ numAttemptedCardsPlayed s1 = numAttemptedCardsPlayed s2.
Proof. by intros [=]. Qed.

(** [cardCycle] with the option on and a chop index inside the hand. *)
Lemma cardCycle_moves_chop hand deck metadata chop :
  let chopIndex := handRules_chopIndex E hand deck in
  options_cardCycle (options metadata) = true →
  Js.get hand chopIndex = Some chop →
  cardCycle E (Some hand) deck metadata
  = Return (Some (if decide (chopIndex = Js.length hand - 1) then hand
                  else delete (Z.to_nat chopIndex) hand ++ [chop])).
Proof.
  intros chopIndex Hon Hchop. unfold cardCycle. rewrite Hon. cbn [negb].
  fold chopIndex. destruct (decide (chopIndex = Js.length hand - 1)); [done|].
  by rewrite (JsFacts.splice1_inside _ _ _ Hchop).
Qed.

(** What the [clue] case does to the log and the hands when it returns. *)
Lemma clue_branch (a : ActionClue) playing shadowing finished hypothetical
    metadata variant d :
  let s := copy_ d in
  wp (actionBranch E (ActClue a) playing shadowing finished hypothetical
        metadata variant)
    (λ _ d', let s' := copy_ d' in
       ∃ text cycled,
         cardCycle E (Js.get (hands s) (c_giver a)) (deck s) metadata
         = Return cycled
         ∧ log s' = log s ++ [{|
             log_turn := turnNum (turn s) + 1; log_text := text |}]
         ∧ hands s'
           = match cycled with
             | Some hand => <[Z.to_nat (c_giver a) := hand]> (hands s)
             | None => hands s
             end)
    (λ _ _, True) d.
Proof.
  intros s. unfold actionBranch. repeat wp_step; try done.
  all: by eexists _, _.
Qed.

(** What every case appends to the log. *)
Lemma actionBranch_log action playing shadowing finished hypothetical
    metadata variant d :
  wp (actionBranch E action playing shadowing finished hypothetical metadata
        variant)
    (λ _ d', narrationOf E action metadata (copy_ d) (copy_ d'))
    (λ _ _, True) d.
Proof.
  destruct action as [a|a|a|a|a|a|a|p|p|p|p|p|p|p]; cbn [narrationOf].
  - eapply wp_mono; [apply clue_branch| |done].
    intros [] d' (text & cycled & _ & Hlog & _). by exists text.
  - eapply wp_mono; [apply (playOrDiscard_branch (IsDiscard a))| |done].
    intros [] d' (hand & card & _ & _ & _ & Hlog & _). by eexists.
  - unfold actionBranch. repeat wp_step; try done.
    all: by rewrite ?app_nil_r.
  - unfold actionBranch. repeat wp_step; by eexists.
  - eapply wp_mono; [apply (playOrDiscard_branch (IsPlay a))| |done].
    intros [] d' (hand & card & _ & _ & _ & Hlog & _). by eexists.
  - unfold actionBranch. wp_step.
    apply (wp_forEach (λ d',
      turn (copy_ d') = turn (copy_ d)
      ∧ ∃ entries,
          log (copy_ d') = log (copy_ d) ++ entries
          ∧ Forall (λ entry, log_turn entry = turnNum (turn (copy_ d)) + 1)
              entries)).
    + split; [done|]. exists []. by rewrite app_nil_r.
    + intros [i time] d' _ (Hturn & entries & Hlog & Htag). repeat wp_step.
      split; [done|]. eexists (entries ++ [_]).
      rewrite Hlog, Hturn. unfold Js.push. rewrite <- app_assoc. split; [done|].
      apply Forall_app. split; [done|]. by apply Forall_singleton.
    + intros d' (Hturn & entries & Hlog & Htag). repeat wp_step.
      eexists (entries ++ [_]). split; [by destruct entries|].
      rewrite Hlog, Hturn. unfold Js.push. rewrite <- app_assoc. split; [done|].
      apply Forall_app. split; [done|]. by apply Forall_singleton.
  - unfold actionBranch. by repeat wp_step.
  - done.
  - done.
  - done.
  - done.
  - done.
  - done.
  - done.
Qed.

(** ** Actions whose case cannot throw *)

Lemma gameStateReducer_total s action playing shadowing finished hypothetical
    metadata ourNotes (Q : unit → Draft → Prop) :
  playOrDiscardCard action = None →
  wp (actionBranch E action playing shadowing finished hypothetical metadata
        (getVariant E (variantName (options metadata))))
    Q (λ _ _, False) (createDraft s) →
  ∃ s' d1,
    gameStateReducer E s action playing shadowing finished hypothetical
      metadata ourNotes = Produced s'
    ∧ core s' = core (copy_ d1) ∧ Q tt d1.
Proof.
  intros Hnone Hwp.
  apply wp_returns in Hwp as ([] & d1 & Hrun & HQ); [|by intros e d' ?].
  destruct (gameStateReducer_returns s action playing shadowing finished
    hypothetical metadata ourNotes d1 Hrun) as (s' & Hs' & Hcore).
  { by apply derive_returns. }
  by exists s', d1.
Qed.

Lemma draw_branch (a : ActionDraw) playing shadowing finished hypothetical
    metadata variant d :
  let s := copy_ d in
  wp (actionBranch E (ActDraw a) playing shadowing finished hypothetical
        metadata variant)
    (λ _ d', let s' := copy_ d' in
       cardsRemainingInTheDeck s' = cardsRemainingInTheDeck s - 1
       ∧ hands s'
         = match Js.get (hands s) (dr_playerIndex a) with
           | Some hand =>
               <[Z.to_nat (dr_playerIndex a) := hand ++ [Some (dr_order a)]]>
                 (hands s)
           | None => hands s
           end
       ∧ playStacks s' = playStacks s ∧ discardStacks s' = discardStacks s
       ∧ clueTokens s' = clueTokens s ∧ score s' = score s
       ∧ clues s' = clues s ∧ strikes s' = strikes s ∧ hole s' = hole s
       ∧ numAttemptedCardsPlayed s' = numAttemptedCardsPlayed s)
    (λ _ _, False) d.
Proof.
  intros s. unfold actionBranch. repeat wp_step; subst s; by rewrite Heqo.
Qed.

Lemma gameOver_branch (a : ActionGameOver) playing shadowing finished
    hypothetical metadata variant d :
  let s := copy_ d in
  let final := if decide (go_endCondition a = Normal) then score s else 0 in
  wp (actionBranch E (ActGameOver a) playing shadowing finished hypothetical
        metadata variant)
    (λ _ d', let s' := copy_ d' in
       score s' = final
       ∧ log s' = log s ++ [{|
           log_turn := turnNum (turn s) + 1;
           log_text :=
             text_gameOver (go_endCondition a) (go_playerIndex a) final
               metadata (go_votes a) |}]
       ∧ hands s' = hands s
       ∧ playStacks s' = playStacks s ∧ discardStacks s' = discardStacks s
       ∧ clueTokens s' = clueTokens s
       ∧ clues s' = clues s ∧ strikes s' = strikes s ∧ hole s' = hole s
       ∧ cardsRemainingInTheDeck s' = cardsRemainingInTheDeck s
       ∧ numAttemptedCardsPlayed s' = numAttemptedCardsPlayed s)
    (λ _ _, False) d.
Proof.
  intros s final. unfold actionBranch. subst final.
  repeat wp_step; by destruct (decide (go_endCondition a = Normal)).
Qed.

Lemma strike_branch (a : ActionStrike) playing shadowing finished hypothetical
    metadata variant d :
  actionBranch E (ActStrike a) playing shadowing finished hypothetical
    metadata variant d
  = (Return tt, {|
       base_ := base_ d;
       copy_ := set_strikes
         (strikes (copy_ d) ++ [{|
            strike_order := s_order a;
            strike_segment := segment (turn (copy_ d)) |}])
         (copy_ d) |}).
Proof. done. Qed.

(** The loop of lines 399-413 appends one entry for every player time. *)
Lemma forEach_pushLog {A} (xs : list A) (text : A → string) body d :
  (∀ x, body x = pushLog (text x)) →
  wp (forEach xs body)
    (λ _ d',
       base_ d' = base_ d
       ∧ copy_ d'
         = set_log
             (log (copy_ d)
              ++ ((λ x, {| log_turn := turnNum (turn (copy_ d)) + 1;
                           log_text := text x |}) <$> xs))
             (copy_ d))
    (λ _ _, False) d.
Proof.
  intros Hbody. revert d. induction xs as [|x xs IH]; intros d; cbn [forEach].
  - apply wp_ret. split; [done|]. rewrite app_nil_r. by destruct (copy_ d).
  - apply wp_bind. rewrite Hbody. apply wp_modify.
    eapply wp_mono; [apply IH| |done].
    intros [] d' [Hb Hc]. split; [done|]. rewrite Hc. cbn.
    unfold Js.push. by rewrite <- app_assoc.
Qed.
Lemma millisecondsToClockString_opp milliseconds :
  millisecondsToClockString (- milliseconds)
  = millisecondsToClockString milliseconds.
Proof. unfold millisecondsToClockString. by rewrite Z.abs_opp. Qed.

Lemma playerTimes_branch (a : ActionPlayerTimes) playing shadowing finished
    hypothetical metadata variant d :
  let s := copy_ d in
  let entry text := {| log_turn := turnNum (turn s) + 1; log_text := text |} in
  let line (i : nat) (time : Z) :=
    entry
      (if timed (options metadata)
       then GameMetadata_getPlayerName E (Z.of_nat i) metadata +:+ " had "
              +:+ utils_millisecondsToClockString E time +:+ " left"
       else GameMetadata_getPlayerName E (Z.of_nat i) metadata +:+ " took: "
              +:+ utils_millisecondsToClockString E (- time)) in
  wp (actionBranch E (ActPlayerTimes a) playing shadowing finished hypothetical
        metadata variant)
    (λ _ d',
       copy_ d'
       = set_log
           (log s ++ imap line (pt_playerTimes a)
              ++ [entry ("The total game duration was: "
                           +:+ utils_millisecondsToClockString E
                                 (pt_duration a))])
           s)
    (λ _ _, False) d.
Proof.
  intros s entry line. unfold actionBranch. apply wp_bind.
  eapply wp_mono;
    [apply (forEach_pushLog _ (λ it : Z * Z,
       if timed (options metadata)
       then GameMetadata_getPlayerName E it.1 metadata +:+ " had "
              +:+ utils_millisecondsToClockString E (it.2 * 1) +:+ " left"
       else GameMetadata_getPlayerName E it.1 metadata +:+ " took: "
              +:+ utils_millisecondsToClockString E (it.2 * -1)))| |done].
  - intros [i time]. cbn [fst snd]. by destruct (timed (options metadata)).
  - intros [] d' [Hb Hc]. cbv beta. apply wp_modify. cbn [copy_].
    rewrite Hc. unfold set_log. state_simpl. fold s. f_equal. unfold Js.push.
    rewrite <- app_assoc. f_equal. f_equal.
    rewrite fmap_imap. apply imap_ext. intros i time _. cbn.
    unfold line, entry. rewrite Z.mul_1_r.
    by replace (time * -1) with (- time) by lia.
Qed.
(** ** The [clue] case in full *)

Lemma splice1_Permutation {A} (xs : list A) start :
  xs ≡ₚ (Js.splice1 xs start).1 ++ (Js.splice1 xs start).2.
Proof.
  unfold Js.splice1. cbn [fst snd]. set (k := Js.spliceStart xs start).
  rewrite Permutation_app_swap_app.
  replace (drop (S k) xs) with (drop 1 (drop k xs))
    by (rewrite drop_drop; f_equal; lia).
  by rewrite (take_drop 1), take_drop.
Qed.

(** When [splice(start, 1)] takes nothing out of the array. *)
Lemma splice1_nothing {A} (xs : list A) start :
  xs = [] ∨ Js.length xs ≤ start → Js.splice1 xs start = ([], xs).
Proof.
  intros Hout. unfold Js.splice1.
  assert (Hk : (List.length xs ≤ Js.spliceStart xs start)%nat).
  { unfold Js.spliceStart, Js.length in *.
    destruct Hout as [->|Hlen]; [cbn; lia|].
    destruct (decide (start < 0)); lia. }
  rewrite (drop_ge xs _ Hk), (take_ge xs _ Hk).
  by rewrite drop_ge, app_nil_r by lia.
Qed.

(** When it takes one element out. *)
Lemma splice1_something {A} (xs : list A) start :
  xs ≠ [] → start < Js.length xs → ∃ x, (Js.splice1 xs start).1 = [x].
Proof.
  intros Hne Hlt. unfold Js.splice1. cbn [fst].
  assert (Hk : (Js.spliceStart xs start < List.length xs)%nat).
  { unfold Js.spliceStart, Js.length in *.
    destruct xs; [done|]. cbn [List.length] in *.
    destruct (decide (start < 0)); lia. }
  destruct (lookup_lt_is_Some_2 xs _ Hk) as [x Hx].
  exists x. by rewrite (drop_S _ _ _ Hx).
Qed.

(** What [cardCycle] gives back for a hand: the hand itself with the option
    off; the same cards when [splice] finds the chop card; the hand with
    [undefined] at its end when the option is on and the chop index lies
    outside the hand. *)
Lemma cardCycle_hand hand deck metadata :
  let chopIndex := handRules_chopIndex E hand deck in
  ∃ hand',
    cardCycle E (Some hand) deck metadata = Return (Some hand')
    ∧ (options_cardCycle (options metadata) = false → hand' = hand)
    ∧ (chopIndex = Js.length hand - 1 → hand' = hand)
    ∧ (hand ≠ [] → chopIndex < Js.length hand → hand' ≡ₚ hand)
    ∧ (options_cardCycle (options metadata) = true →
       chopIndex ≠ Js.length hand - 1 →
       hand = [] ∨ Js.length hand ≤ chopIndex →
       hand' = hand ++ [None]).
Proof.
  intros chopIndex. unfold cardCycle. fold chopIndex.
  destruct (options_cardCycle (options metadata)); cbn [negb];
    [|by exists hand].
  destruct (decide (chopIndex = Js.length hand - 1)) as [Hlast|Hlast];
    [by exists hand|].
  destruct (Js.splice1 hand chopIndex) as [removed rest] eqn:Hsplice.
  eexists. split; [done|]. split; [done|]. split; [done|]. split.
  - intros Hne Hlt.
    destruct (splice1_something hand chopIndex Hne Hlt) as [x Hx].
    pose proof (splice1_Permutation hand chopIndex) as Hp.
    rewrite Hsplice in Hx, Hp. cbn [fst snd] in *. subst removed.
    unfold Js.push. cbn. by rewrite Hp, Permutation_app_comm.
  - intros _ _ Hout. rewrite (splice1_nothing _ _ Hout) in Hsplice.
    by simplify_eq.
Qed.

Lemma Forall2_insert_Permutation (hands : list (list (option CardOrder))) i
    before after :
  hands !! i = Some before → after ≡ₚ before →
  Forall2 (≡ₚ) (<[i := after]> hands) hands.
Proof.
  intros Hi Hp. rewrite <- (list_insert_id hands i before Hi) at 2.
  apply Forall2_insert; [|done]. by apply Forall_Forall2_diag, Forall_true.
Qed.

(** What the [clue] case writes when it returns, and why it throws when it
    does. *)
Lemma clue_branch_full (a : ActionClue) playing shadowing finished
    hypothetical metadata variant d :
  let s := copy_ d in
  let targetHand := Js.get (hands s) (c_target a) in
  wp (actionBranch E (ActClue a) playing shadowing finished hypothetical
        metadata variant)
    (λ _ d', let s' := copy_ d' in
       ∃ seg negativeList text cycled,
         segment (turn s) = Some seg
         ∧ (if c_ignoreNegative a then negativeList = []
            else ∃ hand,
              targetHand = Some hand
              ∧ negativeList
                = List.filter (λ i, negb (Js.includes (c_list a) i)) hand)
         ∧ text_clue E a targetHand hypothetical metadata = Return text
         ∧ cardCycle E (Js.get (hands s) (c_giver a)) (deck s) metadata
           = Return cycled
         ∧ clueTokens s'
           = clueTokens s - clueTokensRules_getAdjusted E 1 variant
         ∧ clues s' = clues s ++ [{|
             clue_type := msg_type (c_clue a);
             clue_value := msg_value (c_clue a);
             clue_giver := c_giver a;
             clue_target := c_target a;
             clue_segment := seg;
             clue_list := c_list a;
             clue_negativeList := negativeList |}]
         ∧ log s' = log s ++ [{|
             log_turn := turnNum (turn s) + 1; log_text := text |}]
         ∧ hands s'
           = match cycled with
             | Some hand => <[Z.to_nat (c_giver a) := hand]> (hands s)
             | None => hands s
             end
         ∧ score s' = score s ∧ playStacks s' = playStacks s
         ∧ discardStacks s' = discardStacks s ∧ strikes s' = strikes s
         ∧ hole s' = hole s
         ∧ cardsRemainingInTheDeck s' = cardsRemainingInTheDeck s
         ∧ numAttemptedCardsPlayed s' = numAttemptedCardsPlayed s)
    (λ e _,
       (segment (turn s) = None ∧ e = BeforeInitialDeal "clue")
       ∨ (is_Some (segment (turn s))
          ∧ ((c_ignoreNegative a = false ∧ targetHand = None ∧ e = TypeError)
             ∨ text_clue E a targetHand hypothetical metadata = Throw e
             ∨ cardCycle E (Js.get (hands s) (c_giver a)) (deck s) metadata
               = Throw e)))
    d.
Proof.
  intros s targetHand. unfold actionBranch. repeat wp_step.
  all: try (by left).
  all: try (right; split; [done|]; by eauto).
  all: eexists _, _, _, _; split; [done|].
  all: split; [by eauto|].
  all: split; [done|]. 
  all: split; [done|]; by repeat split.
Qed.
(** ** More on the [play] and [discard] cases *)

Lemma playOrDiscard_counters (pd : ActionPlayOrDiscard) playing shadowing
    finished hypothetical metadata variant d :
  let s := copy_ d in
  wp (actionBranch E (toAction pd) playing shadowing finished hypothetical
        metadata variant)
    (λ _ d', let s' := copy_ d' in
       score s' = score s + match pd with IsPlay _ => 1 | IsDiscard _ => 0 end
       ∧ clues s' = clues s ∧ strikes s' = strikes s
       ∧ cardsRemainingInTheDeck s' = cardsRemainingInTheDeck s)
    (λ _ _, True) d.
Proof.
  intros s. destruct pd as [a|a]; unfold toAction, actionBranch.
  all: repeat wp_step; try done.
  all: subst s; repeat split; try done; try lia.
Qed.

(** The first place of an element that is in the array. *)
Lemma indexOf_split {A} `{EqDecision A} (xs : list A) (x : A) :
  x ∈ xs →
  ∃ before after,
    xs = before ++ x :: after ∧ (x ∉ before)
    ∧ Js.indexOf xs x = Js.length before.
Proof.
  unfold Js.length. induction xs as [|y ys IH]; [by intros ?%elem_of_nil|].
  intros Hin. cbn. destruct (decide (y = x)) as [->|Hne].
  - exists [], ys. split; [done|]. split; [apply not_elem_of_nil|done].
  - apply elem_of_cons in Hin as [->|Hin]; [done|].
    destruct (IH Hin) as (before & after & -> & Hout & Hidx).
    exists (y :: before), after. split; [done|].
    split; [by apply not_elem_of_cons|].
    rewrite Hidx. destruct (decide _); cbn [List.length]; lia.
Qed.

(** Taking out the found card: the hand splits at the first place of the
    card, the slot counts the cards from there on, and the cards before and
    after it stay in their order. *)
Lemma removeFromHand_split hand order :
  Some order ∈ hand →
  ∃ before after,
    hand = before ++ Some order :: after ∧ (Some order ∉ before)
    ∧ removeFromHand hand order = (Some (Js.length after + 1), before ++ after).
Proof.
  intros Hin. rewrite (removeFromHand_found _ _ Hin).
  destruct (indexOf_split hand (Some order) Hin)
    as (before & after & -> & Hout & Hidx).
  exists before, after. split; [done|]. split; [done|].
  rewrite Hidx. unfold Js.length. rewrite Nat2Z.id, delete_middle.
  rewrite length_app. cbn [List.length]. f_equal. f_equal. lia.
Qed.
(** ** What every case of the [switch] keeps *)

(** The score and the deck counter after an action. *)
Lemma actionBranch_counters action playing shadowing finished hypothetical
    metadata variant d :
  let s := copy_ d in
  wp (actionBranch E action playing shadowing finished hypothetical metadata
        variant)
    (λ _ d', let s' := copy_ d' in
       score s'
       = match action with
         | ActPlay _ => score s + 1
         | ActGameOver a =>
             if decide (go_endCondition a = Normal) then score s else 0
         | _ => score s
         end
       ∧ cardsRemainingInTheDeck s'
         = match action with
           | ActDraw _ => cardsRemainingInTheDeck s - 1
           | _ => cardsRemainingInTheDeck s
           end
       ∧ match action with
         | ActClue _ | ActPlay _ | ActDiscard _ => True
         | _ => clueTokens s' = clueTokens s
         end
       ∧ match action with
         | ActClue _ | ActDiscard _ | ActDraw _ | ActPlay _ => True
         | _ => hands s' = hands s
         end
       ∧ match action with
         | ActPlay _ | ActDiscard _ => True
         | _ => playStacks s' = playStacks s ∧ discardStacks s' = discardStacks s
         end)
    (λ _ _, True) d.
Proof.
  intros s. destruct action as [a|a|a|a|a|a|a|p|p|p|p|p|p|p];
    try done.
  6:{ eapply wp_mono; [apply playerTimes_branch| |done].
      intros [] d' ->. by cbn. }
  all: unfold actionBranch; repeat wp_step; try done.
  all: subst s; repeat split; try done; try lia.
  all: by destruct (decide (go_endCondition a = Normal)).
Qed.

(** The sequences of the state only grow, and the counter of attempted
    plays grows with the hole. *)
Lemma actionBranch_grows action playing shadowing finished hypothetical
    metadata variant d :
  let s := copy_ d in
  wp (actionBranch E action playing shadowing finished hypothetical metadata
        variant)
    (λ _ d', let s' := copy_ d' in
       log s `prefix_of` log s' ∧ clues s `prefix_of` clues s'
       ∧ strikes s `prefix_of` strikes s' ∧ hole s `prefix_of` hole s'
       ∧ numAttemptedCardsPlayed s' - Js.length (hole s')
         = numAttemptedCardsPlayed s - Js.length (hole s))
    (λ _ _, True) d.
Proof.
  intros s. destruct action as [a|a|a|a|a|a|a|p|p|p|p|p|p|p]; try done.
  6:{ eapply wp_mono; [apply playerTimes_branch| |done].
      intros [] d' ->. cbn. repeat split; try done. by eexists. }
  all: unfold actionBranch; repeat wp_step; try done.
  all: subst s; unfold Js.push, Js.length.
  all: repeat split; try done; try (by eexists).
  all: try (rewrite length_app; cbn; lia).
Qed.
(** The [switch] writes none of the fields that the derivations replace. *)
Lemma actionBranch_derived action playing shadowing finished hypothetical
    metadata variant d :
  let s := copy_ d in
  wp (actionBranch E action playing shadowing finished hypothetical metadata
        variant)
    (λ _ d', let s' := copy_ d' in
       deck s' = deck s ∧ playStackDirections s' = playStackDirections s
       ∧ playStackStarts s' = playStackStarts s
       ∧ cardStatus s' = cardStatus s ∧ turn s' = turn s ∧ stats s' = stats s)
    (λ _ _, True) d.
Proof.
  intros s. destruct action as [a|a|a|a|a|a|a|p|p|p|p|p|p|p]; try done.
  6:{ eapply wp_mono; [apply playerTimes_branch| |done].
      intros [] d' ->. by cbn. }
  all: unfold actionBranch; by repeat wp_step.
Qed.

(** The status loop writes the row of its suit only. *)
Lemma recomputeCardStatus_tables suitIndex variant d :
  let s := copy_ d in
  wp (recomputeCardStatus E suitIndex variant)
    (λ _ d', let s' := copy_ d' in
       playStackDirections s' = playStackDirections s
       ∧ playStackStarts s' = playStackStarts s
       ∧ ∀ n, suitIndex ≠ Some n → cardStatus s' !! n = cardStatus s !! n)
    (λ _ _, True) d.
Proof.
  intros s.
  apply (wp_forEach (λ d',
    playStackDirections (copy_ d') = playStackDirections s
    ∧ playStackStarts (copy_ d') = playStackStarts s
    ∧ ∀ n, suitIndex ≠ Some n → cardStatus (copy_ d') !! n = cardStatus s !! n));
    [done| |done].
  intros rank d' _ (Hd & Hs & Hc). repeat wp_step; try done.
  split; [done|]. split; [done|]. intros n Hn.
  rewrite lookup_insert_ne by congruence. by apply Hc.
Qed.

(** The derivations write the three tables under the conditions of the
    source only, and only at the suit of the action. *)
Lemma derive_tables action playing shadowing metadata ourNotes variant d :
  let s := copy_ d in
  wp (derive E action playing shadowing metadata ourNotes variant)
    (λ _ d', let s' := copy_ d' in
       (writesDirections E action variant = false →
        playStackDirections s' = playStackDirections s)
       ∧ (writesStarts action variant = false →
          playStackStarts s' = playStackStarts s)
       ∧ (writesStatus action = false → cardStatus s' = cardStatus s)
       ∧ ∀ n, suitIndexOf action ≠ Some n →
           playStackDirections s' !! n = playStackDirections s !! n
           ∧ playStackStarts s' !! n = playStackStarts s !! n
           ∧ cardStatus s' !! n = cardStatus s !! n)
    (λ _ _, True) d.
Proof.
  intros s. unfold derive. unfold writesDirections, writesStarts,
    writesStatus, suitIndexOf.
  repeat wp_step; try done.
  all: try (eapply wp_mono; [apply recomputeCardStatus_tables| |done];
            intros [] d' (Hd & Hs & Hc); cbv beta; repeat wp_step).
  all: subst s; cbn [playOrDiscardCard] in *; simplify_eq; state_simpl.
  all: rewrite ?Hd, ?Hs.
  all: repeat split; intros; try done; try congruence.
  all: rewrite ?lookup_insert_ne by congruence; try done.
  all: try (apply Hc; congruence).
Qed.

(** A state that the reducer yields is the copy that the derivations left,
    or the copy that the [switch] left for the two note actions. *)
Lemma gameStateReducer_Produced_drafts s action playing shadowing finished
    hypothetical metadata ourNotes s' :
  let variant := getVariant E (variantName (options metadata)) in
  gameStateReducer E s action playing shadowing finished hypothetical metadata
    ourNotes = Produced s' →
  ∃ d1,
    actionBranch E action playing shadowing finished hypothetical metadata
      variant (createDraft s) = (Return tt, d1)
    ∧ (isNoteListOrReceiveNote action = true ∧ s' = copy_ d1
       ∨ isNoteListOrReceiveNote action = false
         ∧ ∃ d2,
             derive E action playing shadowing metadata ourNotes variant d1
             = (Return tt, d2)
             ∧ s' = copy_ d2).
Proof.
  intros variant. rewrite gameStateReducer_run. cbv zeta. fold variant.
  destruct (actionBranch _ _ _ _ _ _ _ _ _) as [[[]|e] d1]; [|done].
  exists d1. split; [done|].
  destruct (isNoteListOrReceiveNote action); [left; by simplify_eq|right].
  split; [done|].
  destruct (derive _ _ _ _ _ _ _ _) as [[[]|e] d2]; [|done].
  exists d2. by simplify_eq.
Qed.

(** ** Sorting and the order of strings *)

Lemma insertSorted_Permutation {A} (leb : A → A → bool) x xs :
  Js.insertSorted leb x xs ≡ₚ x :: xs.
Proof.
  induction xs as [|y ys IH]; cbn; [done|].
  destruct (leb x y); [done|]. by rewrite IH, Permutation_swap.
Qed.

Lemma sort_Permutation {A} (leb : A → A → bool) xs : Js.sort leb xs ≡ₚ xs.
Proof.
  induction xs as [|x xs IH]; cbn; [done|].
  by rewrite insertSorted_Permutation, IH.
Qed.

Lemma insertSorted_Sorted {A} (leb : A → A → bool) x xs :
  (∀ a b, leb a b = true ∨ leb b a = true) →
  Sorted (λ a b, leb a b = true) xs →
  Sorted (λ a b, leb a b = true) (Js.insertSorted leb x xs).
Proof.
  intros Htotal. induction 1 as [|y ys Hsorted IH Hhd]; cbn.
  - by repeat constructor.
  - destruct (leb x y) eqn:Hxy.
    + constructor; [by constructor|by constructor].
    + constructor; [done|].
      destruct ys as [|z zs]; cbn in *.
      * constructor. by destruct (Htotal x y) as [?|?]; [congruence|].
      * destruct (leb x z); constructor; [|by inversion Hhd].
        by destruct (Htotal x y) as [?|?]; [congruence|].
Qed.

Lemma sort_Sorted {A} (leb : A → A → bool) xs :
  (∀ a b, leb a b = true ∨ leb b a = true) →
  Sorted (λ a b, leb a b = true) (Js.sort leb xs).
Proof.
  intros Htotal. induction xs as [|x xs IH]; cbn; [constructor|].
  by apply insertSorted_Sorted.
Qed.

Lemma ascii_compare_N a b :
  Ascii.compare a b = (N_of_ascii a ?= N_of_ascii b)%N.
Proof. done. Qed.

Lemma string_compare_trans a b c :
  String.compare a b ≠ Gt → String.compare b c ≠ Gt → String.compare a c ≠ Gt.
Proof.
  revert b c. induction a as [|x a IH]; intros [|y b] [|z c]; cbn; try done.
  rewrite !ascii_compare_N.
  destruct (N.compare_spec (N_of_ascii x) (N_of_ascii y)) as [Hxy|Hxy|Hxy];
    destruct (N.compare_spec (N_of_ascii y) (N_of_ascii z)) as [Hyz|Hyz|Hyz];
    destruct (N.compare_spec (N_of_ascii x) (N_of_ascii z)) as [Hxz|Hxz|Hxz];
    try done; try lia.
  apply IH.
Qed.

#[local] Instance stringLeb_trans : Transitive (λ a b, Js.stringLeb a b = true).
Proof.
  intros a b c. unfold Js.stringLeb. intros Hab Hbc.
  pose proof (string_compare_trans a b c) as Ht.
  destruct (String.compare a b), (String.compare b c), (String.compare a c);
    try done; by destruct Ht.
Qed.

#[local] Instance stringLeb_antisym :
  AntiSymm (=) (λ a b, Js.stringLeb a b = true).
Proof.
  intros a b. unfold Js.stringLeb. rewrite (String.compare_antisym b a).
  destruct (String.compare a b) eqn:Hc; try done.
  intros _ _. by apply String.compare_eq_iff.
Qed.

Lemma stringLeb_total a b : Js.stringLeb a b = true ∨ Js.stringLeb b a = true.
Proof.
  unfold Js.stringLeb. rewrite (String.compare_antisym b a).
  destruct (String.compare a b); cbn; auto.
Qed.

(** Sorting strings gives one result for all orders of the same strings. *)
Lemma sort_strings_Permutation xs ys :
  xs ≡ₚ ys → Js.sort Js.stringLeb xs = Js.sort Js.stringLeb ys.
Proof.
  intros Hp. apply (Sorted_unique (λ a b, Js.stringLeb a b = true)).
  - apply sort_Sorted, stringLeb_total.
  - apply sort_Sorted, stringLeb_total.
  - by rewrite !sort_Permutation.
Qed.

(** ** The clock string *)

Lemma pad2_length n : 0 ≤ n < 100 → String.length (pad2 n) = 2%nat.
Proof.
  intros Hn.
  assert (bool_decide
            (Forall (λ k, String.length (pad2 k) = 2%nat) (seqZ 0 100))
          = true) as Hall by (vm_compute; reflexivity).
  apply bool_decide_eq_true_1 in Hall. rewrite Forall_forall in Hall. apply Hall, elem_of_seqZ. lia.
Qed.
(** ** The entry of a [draw] *)

Lemma draw_branch_log (a : ActionDraw) playing shadowing finished hypothetical
    metadata variant d :
  let s := copy_ d in
  wp (actionBranch E (ActDraw a) playing shadowing finished hypothetical
        metadata variant)
    (λ _ d',
       log (copy_ d')
       = log s ++
           if deckRules_isInitialDealFinished E
                (cardsRemainingInTheDeck s - 1) metadata
           then [{|
             log_turn := turnNum (turn s) + 1;
             log_text :=
               showString
                 (i ← currentPlayerIndex (turn s) ;
                  Js.get (playerNames metadata) i)
               +:+ " goes first" |}]
           else [])
    (λ _ _, False) d.
Proof.
  intros s. unfold actionBranch. repeat wp_step; subst s.
  all: match goal with
       | H : deckRules_isInitialDealFinished _ _ _ = _ |- _ => rewrite H
       end.
  all: by rewrite ?app_nil_r.
Qed.
(** ** The status loop *)

(** A loop keeps an invariant that follows the elements it has done. *)
Lemma wp_forEach_done {A} (I : list A → Draft → Prop) (xs : list A) body Q X d :
  I [] d →
  (∀ done x d', I done d' → wp (body x) (λ _, I (done ++ [x])) X d') →
  (∀ d', I xs d' → Q tt d') →
  wp (forEach xs body) Q X d.
Proof.
  intros HI Hbody HQ.
  assert (∀ done d', I done d' →
    wp (forEach xs body) (λ _ d'', I (done ++ xs) d'') X d') as Hgen.
  { clear HI HQ d. induction xs as [|x xs IH]; intros done d HI; cbn [forEach].
    - apply wp_ret. by rewrite app_nil_r.
    - apply wp_bind. eapply wp_mono; [by apply Hbody| |done].
      intros [] d' HI'. cbv beta.
      eapply wp_mono; [by apply IH| |done].
      intros [] d'' HI''. by rewrite <- app_assoc in HI''. }
  eapply wp_mono; [by apply (Hgen [])| |done].
  intros [] d' HI'. by apply HQ.
Qed.

(** The status loop gives every rank of the variant the status that
    [cardRules.status] computes on the deck, stacks, directions and starts of
    the draft, which it leaves as they are; the other ranks keep theirs. *)
Lemma recomputeCardStatus_ranks suitIndex variant d :
  let s := copy_ d in
  let statusOf rank :=
    cardRules_status E suitIndex rank (deck s) (playStacks s)
      (playStackDirections s) (playStackStarts s) variant in
  wp (recomputeCardStatus E (Some suitIndex) variant)
    (λ _ d', let s' := copy_ d' in
       deck s' = deck s ∧ playStacks s' = playStacks s
       ∧ playStackDirections s' = playStackDirections s
       ∧ playStackStarts s' = playStackStarts s
       ∧ ∀ rank,
           (cardStatus s' !! suitIndex) ≫= (.!! rank)
           = if decide (rank ∈ ranks variant) then Some (statusOf rank)
             else (cardStatus s !! suitIndex) ≫= (.!! rank))
    (λ _ _, True) d.
Proof.
  intros s statusOf.
  apply (wp_forEach_done (λ done d', let s' := copy_ d' in
    deck s' = deck s ∧ playStacks s' = playStacks s
    ∧ playStackDirections s' = playStackDirections s
    ∧ playStackStarts s' = playStackStarts s
    ∧ ∀ rank,
        (cardStatus s' !! suitIndex) ≫= (.!! rank)
        = if decide (rank ∈ done) then Some (statusOf rank)
          else (cardStatus s !! suitIndex) ≫= (.!! rank))).
  - cbn. by repeat split.
  - intros done x d' (Hd & Hp & Hdir & Hst & Hrow). repeat wp_step; try done.
    simplify_eq. repeat split; try done. intros rank.
    rewrite lookup_insert_eq. cbn.
    rewrite Hd, Hp, Hdir, Hst. fold (statusOf x).
    specialize (Hrow rank).
    match goal with H : cardStatus _ !! _ = Some _ |- _ => rewrite H in Hrow end.
    cbn in Hrow.
    destruct (decide (rank = x)) as [->|Hne].
    + rewrite lookup_insert_eq.
      destruct (decide (x ∈ done ++ [x])) as [|Hout]; [done|].
      destruct Hout. apply elem_of_app. right. by left.
    + rewrite lookup_insert_ne by done. rewrite Hrow.
      destruct (decide (rank ∈ done)) as [Hin|Hnin];
        destruct (decide (rank ∈ done ++ [x])) as [Hin'|Hnin']; try done.
      * destruct Hnin'. apply elem_of_app. by left.
      * apply elem_of_app in Hin' as [?|Hx]; [done|].
        apply list_elem_of_singleton in Hx. done.
  - intros d' H. exact H.
Qed.
(** After a [play] or [discard] with known suit and rank, the row of the suit
    holds the status of every rank of the variant, computed on the deck that
    [cardsReducer] gave and the stacks, directions and starts of the result. *)
Lemma derive_status action playing shadowing metadata ourNotes variant d
    suitIndex rank0 :
  playOrDiscardCard action = Some (Some suitIndex, rank0) →
  suitIndex ≠ -1 → rank0 ≠ -1 →
  wp (derive E action playing shadowing metadata ourNotes variant)
    (λ _ d', let s' := copy_ d' in
       ∀ rank,
         (cardStatus s' !! suitIndex) ≫= (.!! rank)
         = if decide (rank ∈ ranks variant)
           then Some
             (cardRules_status E suitIndex rank
                (cardsReducer E (deck (base_ d)) action (copy_ d) metadata)
                (playStacks s') (playStackDirections s') (playStackStarts s')
                variant)
           else (cardStatus (copy_ d) !! suitIndex) ≫= (.!! rank))
    (λ _ _, True) d.
Proof.
  intros Hcard Hsuit Hrank. unfold derive. rewrite Hcard.
  rewrite !bool_decide_eq_true_2 by congruence. cbn [andb].
  destruct action; try done; repeat wp_step; try done.
  all: eapply wp_mono; [apply recomputeCardStatus_ranks| |done].
  all: intros [] d' (Hd & Hp & Hdir & Hst & Hrow); repeat wp_step.
  all: state_simpl; rewrite Hp, Hdir, Hst; exact Hrow.
Qed.
(** ** A card at the end of a hand *)

Lemma indexOf_app_absent {A} `{EqDecision A} (hand : list A) (order : A) :
  order ∉ hand → Js.indexOf (hand ++ [order]) order = Js.length hand.
Proof.
  unfold Js.length. induction hand as [|y ys IH]; cbn.
  - intros _. by destruct (decide _).
  - intros [Hne Hout]%not_elem_of_cons. specialize (IH Hout).
    destruct (decide _) as [->|_]; [done|].
    rewrite IH. destruct (decide _); lia.
Qed.

Lemma removeFromHand_last (hand : list (option CardOrder)) (order : CardOrder) :
  Some order ∉ hand →
  removeFromHand (hand ++ [Some order]) order = (Some 1, hand).
Proof.
  intros Hout. rewrite removeFromHand_found by set_solver.
  rewrite (indexOf_app_absent _ _ Hout). unfold Js.length.
  rewrite length_app, Nat2Z.id. cbn [List.length].
  rewrite (delete_middle hand [] (Some order)), app_nil_r. f_equal. f_equal.
  lia.
Qed.

(** ** The slots of a clue *)

Lemma clueSlots_Permutation orders orders' targetHand slots :
  orders ≡ₚ orders' →
  clueSlots E orders targetHand = Return slots →
  ∃ slots', clueSlots E orders' targetHand = Return slots' ∧ slots ≡ₚ slots'.
Proof.
  intros Hp. revert slots.
  induction Hp as [|x l l' Hp IH|x y l|l l' l'' Hp IH Hp' IH']; intros slots.
  - intros [= <-]. by exists [].
  - cbn. destruct targetHand as [hand|]; [|done].
    destruct (getCardSlot E x hand) as [slot|]; [|done].
    destruct (clueSlots E l (Some hand)) as [rest|e] eqn:Hl; [|done].
    intros [= <-]. destruct (IH _ eq_refl) as (rest' & -> & Hrest).
    exists (slot :: rest'). split; [done|]. by constructor.
  - cbn. destruct targetHand as [hand|]; [|done].
    destruct (getCardSlot E y hand) as [sy|]; [|done].
    destruct (getCardSlot E x hand) as [sx|]; [|done].
    destruct (clueSlots E l (Some hand)) as [rest|e]; [|done].
    intros [= <-]. exists (sx :: sy :: rest). split; [done|]. apply perm_swap.
  - intros Hl. destruct (IH _ Hl) as (mid & Hmid & Hpm).
    destruct (IH' _ Hmid) as (slots' & Hslots' & Hpm').
    exists slots'. split; [done|]. by etrans.
Qed.

Lemma sort_Z_Permutation (xs ys : list Z) :
  xs ≡ₚ ys → Js.sort Z.leb xs = Js.sort Z.leb ys.
Proof.
  intros Hp.
  assert (Transitive (λ a b, Z.leb a b = true)).
  { intros a b c ?%Z.leb_le ?%Z.leb_le. apply Z.leb_le. lia. }
  assert (AntiSymm (=) (λ a b, Z.leb a b = true)).
  { intros a b ?%Z.leb_le ?%Z.leb_le. lia. }
  apply (Sorted_unique (λ a b, Z.leb a b = true)).
  - apply sort_Sorted. intros a b. rewrite !Z.leb_le. lia.
  - apply sort_Sorted. intros a b. rewrite !Z.leb_le. lia.
  - by rewrite !sort_Permutation.
Qed.
(** ** Claims *)

(** C1: a [play] action that yields a state yields one whose score is the
    prior score plus one, whether the card went to the hole or onto a play
    stack. *)
Theorem play_increments_score s (a : ActionPlay) playing shadowing finished
    hypothetical metadata ourNotes s' :
  gameStateReducer E s (ActPlay a) playing shadowing finished hypothetical
    metadata ourNotes = Produced s' →
  score s' = score s + 1.
Proof.
  intros (d1 & Hrun & Hcore)%gameStateReducer_Produced.
  pose proof (wp_Return _ _ _ _ _ _
    (play_branch_score a playing shadowing finished hypothetical metadata _
       (createDraft s)) Hrun) as Hs.
  apply core_fields in Hcore as (_ & _ & _ & _ & Hscore & _).
  cbn in Hs. by rewrite Hscore, Hs.
Qed.

(** C2: when the recipe throws, the caller gets the exception and no state,
    and the state it passed is the untouched base of the dropped draft.  For
    a [clue] before the end of the deal the exception is the one of line
    135, and the clue tokens that line 132 took are taken in the dropped
    draft only. *)
Theorem failure_is_atomic s action playing shadowing finished hypothetical
    metadata ourNotes e d' :
  gameStateReducerFunction E action playing shadowing finished hypothetical
    metadata ourNotes (createDraft s) = (Throw e, d') →
  gameStateReducer E s action playing shadowing finished hypothetical
    metadata ourNotes = Threw e
  ∧ base_ d' = s
  ∧ (∀ a, action = ActClue a → segment (turn s) = None →
       e = BeforeInitialDeal "clue"
       ∧ clueTokens (copy_ d')
         = clueTokens s
           - clueTokensRules_getAdjusted E 1
               (getVariant E (variantName (options metadata)))).
Proof.
  intros Hrun. split; [|split].
  - unfold gameStateReducer, produce. by rewrite Hrun.
  - apply (wp_Throw _ _ _ _ _ _
      (gameStateReducerFunction_base action playing shadowing finished
         hypothetical metadata ourNotes (createDraft s)) Hrun).
  - intros a -> Hseg. revert Hrun.
    unfold gameStateReducerFunction, actionBranch, mbind, M_bind. cbn.
    rewrite Hseg. by intros [= <- <-].
Qed.

(** C3: a [clue] action on a state whose turn segment is [null] throws the
    exception of line 135, a sequencing error, and [produce] hands it to the
    caller: no state is produced. *)
Theorem clue_before_deal_throws s (a : ActionClue) playing shadowing finished
    hypothetical metadata ourNotes :
  segment (turn s) = None →
  gameStateReducer E s (ActClue a) playing shadowing finished hypothetical
    metadata ourNotes = Threw (BeforeInitialDeal "clue")
  ∧ errorClass (BeforeInitialDeal "clue") = SequencingError.
Proof.
  intros Hseg. split; [|done].
  rewrite gameStateReducer_run. cbv zeta.
  unfold actionBranch, mbind, M_bind. cbn. by rewrite Hseg.
Qed.


(** C5: a [play] or [discard] action that reaches the stacks (the player's
    hand is there and the card does not go to the hole) with a suit index
    that is not a number or is negative throws the exception of line 360 or
    224, an invalid-input error. *)
Theorem invalid_suit_index_throws s (action : ActionPlayOrDiscard) playing
    shadowing finished hypothetical metadata ourNotes hand :
  let variant := getVariant E (variantName (options metadata)) in
  Js.get (hands s) (pd_playerIndex action) = Some hand →
  ¬ goesToHole action variant playing shadowing finished →
  (∀ n, pd_suitIndex action = Some n → n < 0) →
  gameStateReducer E s (toAction action) playing shadowing finished
    hypothetical metadata ourNotes = Threw (badSuitIndex action)
  ∧ errorClass (badSuitIndex action) = InvalidInputError.
Proof.
  intros variant Hhand Hnot Hsuit. split; [|by destruct action].
  rewrite gameStateReducer_run. cbv zeta. fold variant.
  assert (wp (actionBranch E (toAction action) playing shadowing finished
                hypothetical metadata variant)
            (λ _ _, False) (λ e _, e = badSuitIndex action) (createDraft s))
    as Hwp.
  { destruct action as [a|a]; cbn [toAction pd_playerIndex pd_suitIndex] in *;
      unfold actionBranch.
    all: apply wp_bind, wp_getState; cbn [copy_ createDraft].
    all: rewrite Hhand; cbn [nonNull].
    all: repeat wp_step; try done.
    all: try (cbn; congruence).
    all: specialize (Hsuit _ eq_refl); lia. }
  unfold wp in Hwp.
  destruct (actionBranch _ _ _ _ _ _ _ _ _) as [[[]|e] d1]; [done|by subst].
Qed.

(** C6: a [discard] of a card that is in the discarder's hand narrates the
    slot [hand.length - handIndex] and takes the card out of the hand; a
    [discard] of a card that is not in that hand narrates the slot [null]
    and leaves the hands as they are, and it does not throw when the card is
    in the deck, the discard stack (or the hole) takes it and the status
    row of its suit is there. *)
Theorem discard_slot_and_log s (a : ActionDiscard) playing shadowing finished
    hypothetical metadata ourNotes hand :
  let variant := getVariant E (variantName (options metadata)) in
  let reduce :=
    gameStateReducer E s (ActDiscard a) playing shadowing finished
      hypothetical metadata ourNotes in
  let handIndex := Js.indexOf hand (Some (d_order a)) in
  let entry slot card := {|
    log_turn := turnNum (turn s) + 1;
    log_text :=
      text_discard E a slot (cardRules_isClued E card) playing shadowing
        hypothetical metadata |} in
  Js.get (hands s) (d_playerIndex a) = Some hand →
  (∀ s', reduce = Produced s' →
     ∃ card,
       Js.get (deck s) (d_order a) = Some card
       ∧ if decide (Some (d_order a) ∈ hand)
         then
           hand !! Z.to_nat handIndex = Some (Some (d_order a))
           ∧ log s' = log s ++ [entry (Some (Js.length hand - handIndex)) card]
           ∧ hands s'
             = <[Z.to_nat (d_playerIndex a) := delete (Z.to_nat handIndex) hand]>
                 (hands s)
         else
           log s' = log s ++ [entry None card] ∧ hands s' = hands s)
  ∧ (Some (d_order a) ∉ hand →
     ∀ card,
       Js.get (deck s) (d_order a) = Some card →
       goesToHole (IsDiscard a) variant playing shadowing finished
       ∨ (∃ suitIndex stack,
            d_suitIndex a = Some suitIndex ∧ 0 ≤ suitIndex
            ∧ Js.get (discardStacks s) suitIndex = Some stack) →
       statusRowReady (d_suitIndex a) (d_rank a) s →
       ∃ s',
         reduce = Produced s' ∧ log s' = log s ++ [entry None card]
         ∧ hands s' = hands s).
Proof.
  intros variant reduce handIndex entry Hhand.
  pose proof (playOrDiscard_branch (IsDiscard a) playing shadowing finished
    hypothetical metadata variant (createDraft s)) as Hspec.
  cbn [pd_playerIndex pd_order pd_suitIndex toAction copy_ createDraft] in Hspec.
  split.
  - intros s' (d1 & Hrun & Hcore)%gameStateReducer_Produced.
    apply core_fields in Hcore as (Hhands & _ & _ & _ & _ & _ & _ & _ & Hlog & _).
    pose proof (wp_Return _ _ _ _ _ _ Hspec Hrun)
      as (hand0 & card & Hhand0 & Hcard & Hh & Hl & _).
    cbn in Hh, Hl. simplify_eq. exists card. split; [done|].
    rewrite Hhands, Hlog, Hh, Hl.
    destruct (decide (Some (d_order a) ∈ hand)) as [Hin|Hin].
    + rewrite (removeFromHand_found _ _ Hin). split; [|done].
      apply JsFacts.indexOf_found. by intros ?%JsFacts.indexOf_absent.
    + rewrite (removeFromHand_absent _ _ Hin). split; [done|].
      by apply JsFacts.insert_id.
  - intros Habs card Hcard Hstack Hready.
    apply wp_returns in Hspec as ([] & d1 & Hrun & Hpost).
    + destruct Hpost as (hand0 & card0 & Hhand0 & Hcard0 & Hh & Hl & Hst & _).
      cbn in Hh, Hl, Hst. simplify_eq.
      destruct (gameStateReducer_returns s (ActDiscard a) playing shadowing
        finished hypothetical metadata ourNotes d1 Hrun) as (s' & Hred & Hcore).
      { apply derive_discard_returns. unfold statusRowReady. by rewrite Hst. }
      apply core_fields in Hcore as (Hhands & _ & _ & _ & _ & _ & _ & _ & Hlog & _).
      exists s'. split; [done|]. rewrite Hhands, Hlog, Hh, Hl.
      rewrite (removeFromHand_absent _ _ Habs). split; [done|].
      by apply JsFacts.insert_id.
    + intros e d' [[_ [Hn|[Hn|(Hn & n & Hs & Hpos & Hnone)]]]|(_ & Hn & Hneg)].
      * congruence.
      * congruence.
      * destruct Hstack as [?|(n' & stack & ? & ? & ?)]; [done|].
        cbn in Hnone. congruence.
      * destruct Hstack as [?|(n' & stack & Hs & Hpos & _)]; [done|].
        specialize (Hneg _ Hs). lia.
Qed.

(** C7: a [noteList] or [receiveNote] action writes nothing to the draft
    and gives back the prior state, whatever the sub-reducers are: none of
    the derivations runs. *)
Theorem note_actions_keep_state s (p : OtherAction T) playing shadowing
    finished hypothetical metadata ourNotes :
  let run action :=
    gameStateReducerFunction E action playing shadowing finished hypothetical
      metadata ourNotes (createDraft s) in
  let reduce action :=
    gameStateReducer E s action playing shadowing finished hypothetical
      metadata ourNotes in
  run (ActNoteList p) = (Return tt, createDraft s)
  ∧ run (ActReceiveNote p) = (Return tt, createDraft s)
  ∧ reduce (ActNoteList p) = Produced s
  ∧ reduce (ActReceiveNote p) = Produced s.
Proof. done. Qed.

(** C8: a [clue] action with the card-cycling option on, given by a player
    whose chop card is [chop] (the card at [handRules.chopIndex] of the
    hand), leaves the hands as they are when the chop card is at the last
    index (the front of the hand, slot 1), and otherwise takes the chop card
    out of the giver's hand and puts it at the last index, the other cards
    keeping their order. *)
Theorem clue_cycles_chop_card s (a : ActionClue) playing shadowing finished
    hypothetical metadata ourNotes s' hand chop :
  let chopIndex := handRules_chopIndex E hand (deck s) in
  options_cardCycle (options metadata) = true →
  Js.get (hands s) (c_giver a) = Some hand →
  Js.get hand chopIndex = Some chop →
  gameStateReducer E s (ActClue a) playing shadowing finished hypothetical
    metadata ourNotes = Produced s' →
  if decide (chopIndex = Js.length hand - 1)
  then hands s' = hands s
  else
    hands s'
    = <[Z.to_nat (c_giver a) := delete (Z.to_nat chopIndex) hand ++ [chop]]>
        (hands s).
Proof.
  intros chopIndex Hon Hhand Hchop (d1 & Hrun & Hcore)%gameStateReducer_Produced.
  apply core_fields in Hcore as (Hhands & _).
  pose proof (wp_Return _ _ _ _ _ _
    (clue_branch a playing shadowing finished hypothetical metadata _
       (createDraft s)) Hrun) as (text & cycled & Hcycle & _ & Hh).
  cbn in Hcycle, Hh. rewrite Hhand in Hcycle.
  rewrite (cardCycle_moves_chop _ _ _ _ Hon Hchop) in Hcycle.
  fold chopIndex in Hcycle. simplify_eq. rewrite Hhands, Hh.
  destruct (decide (chopIndex = Js.length hand - 1)); [|done].
  by apply JsFacts.insert_id.
Qed.

(** C9, as amended: a [clue], [discard], [play] or [gameOver] action that
    yields a state appended exactly one entry to the log, and a
    [playerTimes] action one or more, each with the turn number
    [turn.turnNum + 1] of the prior state; a [draw] action appended the one
    [goes first] entry when the draw ended the initial deal and nothing
    otherwise; a [strike] action always yields a state, with the log of the
    prior state, as the actions without narration do. *)
Theorem narration_by_action s action playing shadowing finished hypothetical
    metadata ourNotes :
  let reduce :=
    gameStateReducer E s action playing shadowing finished hypothetical
      metadata ourNotes in
  (∀ s', reduce = Produced s' → narrationOf E action metadata s s')
  ∧ (∀ a, action = ActStrike a → ∃ s', reduce = Produced s' ∧ log s' = log s).
Proof.
  intros reduce. split.
  - intros s' (d1 & Hrun & Hcore)%gameStateReducer_Produced.
    apply core_fields in Hcore as (_ & _ & _ & _ & _ & _ & _ & _ & Hlog & _).
    pose proof (wp_Return _ _ _ _ _ _
      (actionBranch_log action playing shadowing finished hypothetical
         metadata _ (createDraft s)) Hrun) as Hspec.
    cbn [copy_ createDraft] in Hspec.
    destruct action; cbn [narrationOf] in *; unfold appendsNarration in *;
      by rewrite Hlog.
  - intros a ->.
    destruct (gameStateReducer_returns s (ActStrike a) playing shadowing
      finished hypothetical metadata ourNotes _ eq_refl) as (s' & Hred & Hcore).
    { by apply derive_returns. }
    apply core_fields in Hcore as (_ & _ & _ & _ & _ & _ & _ & _ & Hlog & _).
    by exists s'.
Qed.

(** C10: the hole test returns [true] exactly when the variant is a
    throw-it-in-a-hole variant, the game is played or shadowed and not
    finished, and the action is a [play] or a failed [discard].  When it
    does, the order is appended to [hole], [numAttemptedCardsPlayed] grows
    by one, no stack and no clue token changes, and no suit index, negative
    ones included, raises the invalid-input exception: the [switch] returns
    as soon as the hand and the card exist, and the only exception left to
    the reducer is a [TypeError].  When it does not, [hole] and the counter
    stay as they are. *)
Theorem hole_redirection s (pd : ActionPlayOrDiscard) playing shadowing
    finished hypothetical metadata ourNotes :
  let variant := getVariant E (variantName (options metadata)) in
  let reduce :=
    gameStateReducer E s (toAction pd) playing shadowing finished hypothetical
      metadata ourNotes in
  let redirected := goesToHole pd variant playing shadowing finished in
  (∀ d, ∃ d',
     throwItInAHolePlayedOrMisplayed pd variant playing shadowing finished d
     = (Return (bool_decide redirected), d'))
  ∧ (∀ s', reduce = Produced s' →
       if decide redirected
       then
         hole s' = hole s ++ [pd_order pd]
         ∧ numAttemptedCardsPlayed s' = numAttemptedCardsPlayed s + 1
         ∧ playStacks s' = playStacks s
         ∧ discardStacks s' = discardStacks s
         ∧ clueTokens s' = clueTokens s
       else
         hole s' = hole s
         ∧ numAttemptedCardsPlayed s' = numAttemptedCardsPlayed s)
  ∧ (redirected → ∀ e, reduce = Threw e → e = TypeError)
  ∧ (redirected →
     is_Some (Js.get (hands s) (pd_playerIndex pd)) →
     is_Some (Js.get (deck s) (pd_order pd)) →
     ∃ d1,
       actionBranch E (toAction pd) playing shadowing finished hypothetical
         metadata variant (createDraft s) = (Return tt, d1)).
Proof.
  intros variant reduce redirected.
  pose proof (playOrDiscard_branch pd playing shadowing finished
    hypothetical metadata variant (createDraft s)) as Hspec.
  cbn [copy_ createDraft] in Hspec.
  split; [|split; [|split]].
  - intros d. unfold throwItInAHolePlayedOrMisplayed.
    destruct (decide redirected) as [Hhole|Hnot].
    + rewrite (bool_decide_eq_true_2 _ Hhole).
      destruct (goesToHole_bool _ _ _ _ _ Hhole) as [-> ->]. by eexists.
    + rewrite (bool_decide_eq_false_2 _ Hnot).
      destruct (_ || finished) eqn:Hb; [by eexists|].
      rewrite (not_goesToHole_bool _ _ _ _ _ Hnot Hb). by eexists.
  - intros s' (d1 & Hrun & Hcore)%gameStateReducer_Produced.
    apply core_fields in Hcore
      as (_ & Hplay & Hdiscard & Htokens & _ & _ & _ & Hhole & _ & _ & Hnum).
    pose proof (wp_Return _ _ _ _ _ _ Hspec Hrun)
      as (hand & card & _ & _ & _ & _ & _ & Hother & Hcase).
    rewrite Hplay, Hdiscard, Htokens, Hhole, Hnum.
    fold redirected in Hcase. destruct (decide redirected).
    + destruct Hcase as (? & ? & Hstacks & ?).
      by destruct pd; cbn in Hother, Hstacks.
    + by destruct Hcase as (? & ? & _).
  - intros Hhole e [[d1 Hrun]|Hty]%gameStateReducer_Threw; [|done].
    by destruct (wp_Throw _ _ _ _ _ _ Hspec Hrun) as [[? _]|(_ & ? & _)].
  - intros Hhole [hand Hhand] [card Hcard].
    apply wp_returns in Hspec as ([] & d1 & Hrun & _); [by exists d1|].
    intros e d' [[_ [?|[?|[? _]]]]|(_ & ? & _)]; done || congruence.
Qed.

(** ** Further properties of the reducer and the narration *)

(** X1: a [draw] action always yields a state: the deck counter drops by
    one, the card goes to the end of the drawing player's hand when that
    player has a hand and nowhere when not (line 274), and score, clue
    tokens, stacks and hole stay as they are. *)
Theorem draw_always_applies s (a : ActionDraw) playing shadowing finished
    hypothetical metadata ourNotes :
  ∃ s',
    gameStateReducer E s (ActDraw a) playing shadowing finished hypothetical
      metadata ourNotes = Produced s'
    ∧ cardsRemainingInTheDeck s' = cardsRemainingInTheDeck s - 1
    ∧ hands s'
      = match Js.get (hands s) (dr_playerIndex a) with
        | Some hand =>
            <[Z.to_nat (dr_playerIndex a) := hand ++ [Some (dr_order a)]]>
              (hands s)
        | None => hands s
        end
    ∧ score s' = score s ∧ clueTokens s' = clueTokens s
    ∧ playStacks s' = playStacks s ∧ discardStacks s' = discardStacks s
    ∧ hole s' = hole s.
Proof.
  destruct (gameStateReducer_total s (ActDraw a) playing shadowing finished
    hypothetical metadata ourNotes _ eq_refl
    (draw_branch a playing shadowing finished hypothetical metadata _
       (createDraft s))) as (s' & d1 & Hs' & Hcore & Hpost).
  apply core_fields in Hcore
    as (Hh & Hp & Hd & Ht & Hsc & _ & _ & Hho & _ & Hn & _).
  cbn in Hpost.
  destruct Hpost as (Hn1 & Hh1 & Hp1 & Hd1 & Ht1 & Hsc1 & _ & _ & Hho1 & _).
  exists s'. split; [done|]. by rewrite Hn, Hh, Hsc, Ht, Hp, Hd, Hho.
Qed.

(** X2: a [gameOver] action always yields a state.  The score is kept for
    the end condition [Normal] and is 0 for every other one, [InProgress]
    included; the one entry that is appended narrates the score after that
    reset, so for [InProgress] it reads [Players score 0 points.]. *)
Theorem gameOver_resets_score s (a : ActionGameOver) playing shadowing
    finished hypothetical metadata ourNotes :
  let final := if decide (go_endCondition a = Normal) then score s else 0 in
  ∃ s' text,
    gameStateReducer E s (ActGameOver a) playing shadowing finished
      hypothetical metadata ourNotes = Produced s'
    ∧ score s' = final
    ∧ log s' = log s ++ [{| log_turn := turnNum (turn s) + 1; log_text := text |}]
    ∧ text
      = text_gameOver (go_endCondition a) (go_playerIndex a) final metadata
          (go_votes a)
    ∧ (go_endCondition a = InProgress → text = "Players score 0 points.")
    ∧ hands s' = hands s ∧ clueTokens s' = clueTokens s
    ∧ playStacks s' = playStacks s ∧ discardStacks s' = discardStacks s.
Proof.
  intros final.
  destruct (gameStateReducer_total s (ActGameOver a) playing shadowing finished
    hypothetical metadata ourNotes _ eq_refl
    (gameOver_branch a playing shadowing finished hypothetical metadata _
       (createDraft s))) as (s' & d1 & Hs' & Hcore & Hpost).
  apply core_fields in Hcore
    as (Hh & Hp & Hd & Ht & Hsc & _ & _ & _ & Hl & _).
  cbn in Hpost.
  destruct Hpost as (Hsc1 & Hl1 & Hh1 & Hp1 & Hd1 & Ht1 & _).
  exists s'. eexists. split; [done|]. rewrite Hsc, Hl, Hh, Ht, Hp, Hd.
  split; [done|]. split; [exact Hl1|]. split; [done|]. split; [|done].
  intros Hend. subst final. rewrite Hend. by destruct (decide _).
Qed.

(** X3: a [strike] action always yields a state, also before the end of the
    deal: the record it appends to [strikes] holds the order of the card and
    the segment of the turn as it is, [null] included, and hands, stacks,
    clue tokens, score, hole and log stay as they are. *)
Theorem strike_records_segment s (a : ActionStrike) playing shadowing finished
    hypothetical metadata ourNotes :
  ∃ s',
    gameStateReducer E s (ActStrike a) playing shadowing finished hypothetical
      metadata ourNotes = Produced s'
    ∧ strikes s'
      = strikes s ++ [{| strike_order := s_order a;
                         strike_segment := segment (turn s) |}]
    ∧ hands s' = hands s ∧ score s' = score s ∧ clueTokens s' = clueTokens s
    ∧ playStacks s' = playStacks s ∧ discardStacks s' = discardStacks s
    ∧ hole s' = hole s ∧ log s' = log s.
Proof.
  destruct (gameStateReducer_returns s (ActStrike a) playing shadowing
    finished hypothetical metadata ourNotes _
    (strike_branch a playing shadowing finished hypothetical metadata _
       (createDraft s))) as (s' & Hs' & Hcore).
  { by apply derive_returns. }
  apply core_fields in Hcore
    as (Hh & Hp & Hd & Ht & Hsc & _ & Hst & Hho & Hl & _).
  exists s'. split; [done|]. by rewrite Hst, Hh, Hsc, Ht, Hp, Hd, Hho, Hl.
Qed.

(** X4: a [playerTimes] action always yields a state whose log is the prior
    log, one entry for every player time in the order of the array, and the
    entry of the total duration, all with the turn number of the prior
    state.  The name is the one that [getPlayerName] of [types/GameMetadata]
    gives for the index of the time, and the clock string the one that
    [millisecondsToClockString] of [utils] gives for the time in a timed
    game and for the negated time otherwise (the reducer imports both, and
    neither is [rules/text.ts]'s function of that name).  Score, hands, clue
    tokens, stacks and hole stay as they are. *)
Theorem playerTimes_appends_lines s (a : ActionPlayerTimes) playing shadowing
    finished hypothetical metadata ourNotes :
  let entry text := {| log_turn := turnNum (turn s) + 1; log_text := text |} in
  let line (i : nat) (time : Z) :=
    entry
      (if timed (options metadata)
       then GameMetadata_getPlayerName E (Z.of_nat i) metadata +:+ " had "
              +:+ utils_millisecondsToClockString E time +:+ " left"
       else GameMetadata_getPlayerName E (Z.of_nat i) metadata +:+ " took: "
              +:+ utils_millisecondsToClockString E (- time)) in
  ∃ s',
    gameStateReducer E s (ActPlayerTimes a) playing shadowing finished
      hypothetical metadata ourNotes = Produced s'
    ∧ log s'
      = log s ++ imap line (pt_playerTimes a)
          ++ [entry ("The total game duration was: "
                       +:+ utils_millisecondsToClockString E (pt_duration a))]
    ∧ score s' = score s ∧ hands s' = hands s ∧ clueTokens s' = clueTokens s
    ∧ playStacks s' = playStacks s ∧ discardStacks s' = discardStacks s
    ∧ hole s' = hole s.
Proof.
  intros entry line.
  destruct (gameStateReducer_total s (ActPlayerTimes a) playing shadowing
    finished hypothetical metadata ourNotes _ eq_refl
    (playerTimes_branch a playing shadowing finished hypothetical metadata _
       (createDraft s))) as (s' & d1 & Hs' & Hcore & Hpost).
  apply core_fields in Hcore
    as (Hh & Hp & Hd & Ht & Hsc & _ & _ & Hho & Hl & _).
  cbn [copy_ createDraft] in Hpost. rewrite Hpost in *.
  exists s'. split; [done|]. by rewrite Hl, Hsc, Hh, Ht, Hp, Hd, Hho.
Qed.

(** X5: a [clue] action that yields a state took [getAdjusted(1, variant)]
    clue tokens and appended one record to [clues], with the segment of the
    turn and a negative list that is empty when [ignoreNegative] is set and
    otherwise holds exactly the elements of the target's hand that are not a
    card that the clue lists; score, stacks and hole stay as they are. *)
Theorem clue_records_negative_list s (a : ActionClue) playing shadowing
    finished hypothetical metadata ourNotes s' :
  gameStateReducer E s (ActClue a) playing shadowing finished hypothetical
    metadata ourNotes = Produced s' →
  clueTokens s'
  = clueTokens s
    - clueTokensRules_getAdjusted E 1
        (getVariant E (variantName (options metadata)))
  ∧ (∃ seg negativeList,
       segment (turn s) = Some seg
       ∧ clues s' = clues s ++ [{|
           clue_type := msg_type (c_clue a);
           clue_value := msg_value (c_clue a);
           clue_giver := c_giver a;
           clue_target := c_target a;
           clue_segment := seg;
           clue_list := c_list a;
           clue_negativeList := negativeList |}]
       ∧ if c_ignoreNegative a then negativeList = []
         else ∃ hand,
           Js.get (hands s) (c_target a) = Some hand
           ∧ ∀ card,
               card ∈ negativeList
               ↔ card ∈ hand ∧ ∀ order, card = Some order → order ∉ c_list a)
  ∧ score s' = score s ∧ playStacks s' = playStacks s
  ∧ discardStacks s' = discardStacks s ∧ hole s' = hole s.
Proof.
  intros (d1 & Hrun & Hcore)%gameStateReducer_Produced.
  apply core_fields in Hcore
    as (_ & Hp & Hd & Ht & Hsc & Hcl & _ & Hho & _).
  pose proof (wp_Return _ _ _ _ _ _
    (clue_branch_full a playing shadowing finished hypothetical metadata _
       (createDraft s)) Hrun)
    as (seg & negativeList & text & cycled & Hseg & Hneg & _ & _ & Ht1 & Hcl1
        & _ & _ & Hsc1 & Hp1 & Hd1 & _ & Hho1 & _).
  cbn [copy_ createDraft] in *.
  rewrite Ht, Hsc, Hp, Hd, Hho, Hcl. split; [done|]. split; [|done].
  exists seg, negativeList. split; [done|]. split; [done|].
  destruct (c_ignoreNegative a); [done|].
  destruct Hneg as (hand & Hhand & ->). exists hand. split; [done|].
  intros card. rewrite !list_elem_of_In, filter_In, <- !list_elem_of_In.
  unfold Js.includes. rewrite negb_true_iff. destruct card as [order|].
  - rewrite bool_decide_eq_false. split; intros [Hin Hout]; (split; [done|]).
    + by intros ? [= <-].
    + by apply Hout.
  - split; intros [Hin _]; by split.
Qed.

(** X6: a [clue] action that yields a state changes no hand but the
    giver's, and none at all with the card-cycling option off.  The giver's
    hand keeps its cards, in another order at most, when the chop index
    that [handRules.chopIndex] returns is the last index or is one that
    [splice] resolves inside the hand (the hand is not empty and the index
    is below its length; a negative index counts from the end).  With the
    option on and a chop index beyond the hand, the code stores [undefined]
    at the end of the hand (lines 567-570 push [removed[0]] unchecked). *)
Theorem clue_keeps_cards s (a : ActionClue) playing shadowing finished
    hypothetical metadata ourNotes s' :
  gameStateReducer E s (ActClue a) playing shadowing finished hypothetical
    metadata ourNotes = Produced s' →
  (options_cardCycle (options metadata) = false → hands s' = hands s)
  ∧ ∀ hand,
      Js.get (hands s) (c_giver a) = Some hand →
      let chopIndex := handRules_chopIndex E hand (deck s) in
      ∃ hand',
        hands s' = <[Z.to_nat (c_giver a) := hand']> (hands s)
        ∧ (chopIndex = Js.length hand - 1 → hand' = hand)
        ∧ (hand ≠ [] → chopIndex < Js.length hand →
           hand' ≡ₚ hand ∧ Forall2 (≡ₚ) (hands s') (hands s))
        ∧ (options_cardCycle (options metadata) = true →
           chopIndex ≠ Js.length hand - 1 →
           hand = [] ∨ Js.length hand ≤ chopIndex →
           hand' = hand ++ [None]).
Proof.
  intros (d1 & Hrun & Hcore)%gameStateReducer_Produced.
  apply core_fields in Hcore as (Hh & _).
  pose proof (wp_Return _ _ _ _ _ _
    (clue_branch_full a playing shadowing finished hypothetical metadata _
       (createDraft s)) Hrun)
    as (seg & negativeList & text & cycled & _ & _ & _ & Hcycle & _ & _
        & _ & Hh1 & _).
  cbn [copy_ createDraft] in *. rewrite Hh, Hh1. clear Hh Hh1. split.
  - intros Hoff. unfold cardCycle in Hcycle. rewrite Hoff in Hcycle.
    injection Hcycle as <-.
    destruct (Js.get (hands s) (c_giver a)) as [hand|] eqn:Hhand; [|done].
    by apply JsFacts.insert_id.
  - intros hand Hhand. rewrite Hhand in Hcycle.
    destruct (cardCycle_hand hand (deck s) metadata)
      as (hand' & Hhand' & _ & Hlast & Hperm & Hundefined).
    rewrite Hhand' in Hcycle. injection Hcycle as <-.
    exists hand'. split; [done|]. split; [done|]. split; [|done].
    intros Hne Hlt. pose proof (Hperm Hne Hlt) as Hp. split; [done|].
    apply JsFacts.get_Some in Hhand as [_ Hhand].
    by eapply Forall2_insert_Permutation.
Qed.

(** X7: a [clue] action after the deal whose target has no hand throws a
    [TypeError], unless [ignoreNegative] is set: line 142 reads the hand
    without a check. *)
Theorem clue_target_without_hand s (a : ActionClue) playing shadowing finished
    hypothetical metadata ourNotes :
  is_Some (segment (turn s)) →
  c_ignoreNegative a = false →
  Js.get (hands s) (c_target a) = None →
  gameStateReducer E s (ActClue a) playing shadowing finished hypothetical
    metadata ourNotes = Threw TypeError.
Proof.
  intros [seg Hseg] Hneg Hhand.
  rewrite gameStateReducer_run. cbv zeta.
  unfold actionBranch, mbind, M_bind. cbn. by rewrite Hseg, Hneg, Hhand.
Qed.

(** X8: a [discard] action that is not redirected to the hole and yields a
    state had a suit index that is a number and not negative and pushed the
    card onto the discard stack of that suit; the play stacks, the hole and
    the score stay as they are, and the clue tokens are
    [clueTokensRules.gain] of the prior tokens without the stack-complete
    flag. *)
Theorem discard_goes_to_discard_stack s (a : ActionDiscard) playing shadowing
    finished hypothetical metadata ourNotes s' :
  let variant := getVariant E (variantName (options metadata)) in
  ¬ goesToHole (IsDiscard a) variant playing shadowing finished →
  gameStateReducer E s (ActDiscard a) playing shadowing finished hypothetical
    metadata ourNotes = Produced s' →
  ∃ suitIndex stack,
    d_suitIndex a = Some suitIndex ∧ 0 ≤ suitIndex
    ∧ Js.get (discardStacks s) suitIndex = Some stack
    ∧ discardStacks s'
      = <[Z.to_nat suitIndex := stack ++ [d_order a]]> (discardStacks s)
    ∧ playStacks s' = playStacks s ∧ hole s' = hole s
    ∧ score s' = score s
    ∧ clueTokens s'
      = clueTokensRules_gain E (IsDiscard a) (clueTokens s) variant false.
Proof.
  intros variant Hnot (d1 & Hrun & Hcore)%gameStateReducer_Produced.
  apply core_fields in Hcore as (_ & Hp & Hd & Ht & Hsc & _ & _ & Hho & _).
  pose proof (wp_Return _ _ _ _ _ _
    (playOrDiscard_branch (IsDiscard a) playing shadowing finished
       hypothetical metadata variant (createDraft s)) Hrun)
    as (hand & card & _ & _ & _ & _ & _ & Hother & Hcase).
  pose proof (wp_Return _ _ _ _ _ _
    (playOrDiscard_counters (IsDiscard a) playing shadowing finished
       hypothetical metadata variant (createDraft s)) Hrun) as (Hscore & _).
  cbn in Hother, Hscore. case_decide; [done|].
  destruct Hcase
    as (Hhole & _ & suitIndex & stack & Hsuit & Hpos & Hget & Hpush & Htok).
  cbn in Hget, Hpush, Htok.
  exists suitIndex, stack. rewrite Hd, Hp, Hho, Hsc, Ht, Hscore.
  repeat split; try done. lia.
Qed.

(** X9: a [play] action that yields a state replaces the hand of the
    player and no other hand.  When the card is in the hand, the hand splits
    at the first place of the card: the new hand is the cards before it
    followed by the cards after it, in their order, and the narrated slot is
    [hand.length - indexOf(order)], which counts the card and the cards
    after it and so lies between 1 and the length of the hand.  When the
    card is not in the hand the slot is [null] and the hand stays as it
    is. *)
Theorem play_takes_card_from_hand s (a : ActionPlay) playing shadowing
    finished hypothetical metadata ourNotes s' hand :
  let entry slot card := {|
    log_turn := turnNum (turn s) + 1;
    log_text :=
      text_play E a slot (cardRules_isClued E card) playing shadowing
        hypothetical metadata |} in
  Js.get (hands s) (p_playerIndex a) = Some hand →
  gameStateReducer E s (ActPlay a) playing shadowing finished hypothetical
    metadata ourNotes = Produced s' →
  ∃ card hand',
    Js.get (deck s) (p_order a) = Some card
    ∧ hands s' = <[Z.to_nat (p_playerIndex a) := hand']> (hands s)
    ∧ if decide (Some (p_order a) ∈ hand)
      then
        ∃ slot before after,
          hand = before ++ Some (p_order a) :: after
          ∧ (Some (p_order a) ∉ before)
          ∧ hand' = before ++ after
          ∧ slot = Js.length hand - Js.indexOf hand (Some (p_order a))
          ∧ slot = Js.length after + 1
          ∧ 1 ≤ slot ≤ Js.length hand
          ∧ log s' = log s ++ [entry (Some slot) card]
      else log s' = log s ++ [entry None card] ∧ hand' = hand.
Proof.
  intros entry Hhand (d1 & Hrun & Hcore)%gameStateReducer_Produced.
  apply core_fields in Hcore as (Hh & _ & _ & _ & _ & _ & _ & _ & Hl & _).
  pose proof (wp_Return _ _ _ _ _ _
    (playOrDiscard_branch (IsPlay a) playing shadowing finished
       hypothetical metadata _ (createDraft s)) Hrun)
    as (hand0 & card & Hhand0 & Hcard & Hh1 & Hl1 & _).
  cbn in Hhand0, Hcard, Hh1, Hl1. simplify_eq.
  exists card, (removeFromHand hand (p_order a)).2.
  rewrite Hh, Hl, Hh1, Hl1. split; [done|]. split; [done|].
  destruct (decide (Some (p_order a) ∈ hand)) as [Hin|Hin].
  - destruct (removeFromHand_split _ _ Hin)
      as (before & after & Hsplit & Hout & Hremoved).
    pose proof (removeFromHand_found _ _ Hin) as Hfound.
    rewrite Hremoved in Hfound. injection Hfound as Hslot _.
    rewrite Hremoved. cbn [fst snd].
    exists (Js.length after + 1), before, after.
    split; [done|]. split; [done|]. split; [done|]. split; [done|].
    split; [done|]. split; [|done].
    rewrite Hsplit. unfold Js.length. rewrite length_app. cbn [List.length].
    lia.
  - by rewrite (removeFromHand_absent _ _ Hin).
Qed.

(** X10: a [play] or [discard] action of a player who has no hand throws a
    [TypeError] (lines 205 and 341 read the hand without the check that the
    [draw] case makes), before the hole or a stack is touched. *)
Theorem play_or_discard_without_hand s (pd : ActionPlayOrDiscard) playing
    shadowing finished hypothetical metadata ourNotes :
  Js.get (hands s) (pd_playerIndex pd) = None →
  gameStateReducer E s (toAction pd) playing shadowing finished hypothetical
    metadata ourNotes = Threw TypeError.
Proof.
  intros Hhand. rewrite gameStateReducer_run. cbv zeta.
  destruct pd as [a|a]; cbn [toAction pd_playerIndex] in *;
    unfold actionBranch, mbind, M_bind; cbn; by rewrite Hhand.
Qed.

(** X11: for a [setEffMod], [editNote], [noteListPlayer], [turn] or
    [cardIdentity] action the reducer always yields a state, with the hands,
    stacks, clue tokens, score, records, hole, log and counters of the prior
    state and with its three per-suit tables; unlike [noteList] and
    [receiveNote] these actions do reach the sub-reducers: the turn of the
    new state is [turnReducer] of the prior turn and of the state with the
    deck that [cardsReducer] gave. *)
Theorem ignored_actions_reach_sub_reducers s action playing shadowing finished
    hypothetical metadata ourNotes :
  leftToSubReducers action →
  ∃ s',
    gameStateReducer E s action playing shadowing finished hypothetical
      metadata ourNotes = Produced s'
    ∧ core s' = core s
    ∧ playStackDirections s' = playStackDirections s
    ∧ playStackStarts s' = playStackStarts s
    ∧ cardStatus s' = cardStatus s
    ∧ turn s'
      = turnReducer E (turn s) action
          (set_deck (cardsReducer E (deck s) action s metadata) s) metadata.
Proof.
  intros Hleft. destruct action; try done; by eexists.
Qed.

(** X12: the log, the clue records, the strike records and the hole only
    grow: whatever the action, each of them in the prior state is a prefix
    of the one in the state that the reducer yields. *)
Theorem sequences_only_grow s action playing shadowing finished hypothetical
    metadata ourNotes s' :
  gameStateReducer E s action playing shadowing finished hypothetical metadata
    ourNotes = Produced s' →
  log s `prefix_of` log s' ∧ clues s `prefix_of` clues s'
  ∧ strikes s `prefix_of` strikes s' ∧ hole s `prefix_of` hole s'.
Proof.
  intros (d1 & Hrun & Hcore)%gameStateReducer_Produced.
  apply core_fields in Hcore as (_ & _ & _ & _ & _ & Hc & Hst & Hh & Hl & _).
  pose proof (wp_Return _ _ _ _ _ _
    (actionBranch_grows action playing shadowing finished hypothetical
       metadata _ (createDraft s)) Hrun) as (? & ? & ? & ? & _).
  by rewrite Hc, Hst, Hh, Hl.
Qed.

(** X13: whatever the action, [numAttemptedCardsPlayed] grows by the number
    of cards that the hole grows by: the difference between the counter and
    the length of the hole is the same before and after. *)
Theorem attempted_plays_follow_hole s action playing shadowing finished
    hypothetical metadata ourNotes s' :
  gameStateReducer E s action playing shadowing finished hypothetical metadata
    ourNotes = Produced s' →
  numAttemptedCardsPlayed s' - Js.length (hole s')
  = numAttemptedCardsPlayed s - Js.length (hole s).
Proof.
  intros (d1 & Hrun & Hcore)%gameStateReducer_Produced.
  apply core_fields in Hcore as (_ & _ & _ & _ & _ & _ & _ & Hh & _ & _ & Hn).
  pose proof (wp_Return _ _ _ _ _ _
    (actionBranch_grows action playing shadowing finished hypothetical
       metadata _ (createDraft s)) Hrun) as (_ & _ & _ & _ & Hdiff).
  by rewrite Hh, Hn.
Qed.

(** X14: the score after an action is the prior score plus one for a
    [play], the prior score or 0 for a [gameOver] (0 unless the end
    condition is [Normal]), and the prior score for every other action; so
    no action but a [gameOver] lowers the score. *)
Theorem score_by_action s action playing shadowing finished hypothetical
    metadata ourNotes s' :
  gameStateReducer E s action playing shadowing finished hypothetical metadata
    ourNotes = Produced s' →
  score s'
  = match action with
    | ActPlay _ => score s + 1
    | ActGameOver a =>
        if decide (go_endCondition a = Normal) then score s else 0
    | _ => score s
    end
  ∧ ((∀ a, action ≠ ActGameOver a) → score s ≤ score s').
Proof.
  intros (d1 & Hrun & Hcore)%gameStateReducer_Produced.
  apply core_fields in Hcore as (_ & _ & _ & _ & Hsc & _).
  pose proof (wp_Return _ _ _ _ _ _
    (actionBranch_counters action playing shadowing finished hypothetical
       metadata _ (createDraft s)) Hrun) as (Hscore & _).
  cbn [copy_ createDraft] in Hscore. rewrite Hsc, Hscore. split; [done|].
  intros Hnot. destruct action; try lia. by destruct (Hnot a).
Qed.

(** X15: only a [draw] changes the deck counter (by -1); only a [clue],
    [play] or [discard] changes the clue tokens; only a [clue], [discard],
    [draw] or [play] changes a hand; only a [play] or [discard] changes a
    play or discard stack. *)
Theorem counters_by_action s action playing shadowing finished hypothetical
    metadata ourNotes s' :
  gameStateReducer E s action playing shadowing finished hypothetical metadata
    ourNotes = Produced s' →
  cardsRemainingInTheDeck s'
  = match action with
    | ActDraw _ => cardsRemainingInTheDeck s - 1
    | _ => cardsRemainingInTheDeck s
    end
  ∧ match action with
    | ActClue _ | ActPlay _ | ActDiscard _ => True
    | _ => clueTokens s' = clueTokens s
    end
  ∧ match action with
    | ActClue _ | ActDiscard _ | ActDraw _ | ActPlay _ => True
    | _ => hands s' = hands s
    end
  ∧ match action with
    | ActPlay _ | ActDiscard _ => True
    | _ => playStacks s' = playStacks s ∧ discardStacks s' = discardStacks s
    end.
Proof.
  intros (d1 & Hrun & Hcore)%gameStateReducer_Produced.
  apply core_fields in Hcore as (Hh & Hp & Hd & Ht & _ & _ & _ & _ & _ & Hn & _).
  pose proof (wp_Return _ _ _ _ _ _
    (actionBranch_counters action playing shadowing finished hypothetical
       metadata _ (createDraft s)) Hrun) as (_ & Hn1 & Ht1 & Hh1 & Hs1).
  cbn [copy_ createDraft] in *. rewrite Hn, Hh, Hp, Hd, Ht.
  by destruct action.
Qed.

(** X16: the three per-suit tables are written under the conditions of the
    source only ([playStackDirections] for a [play] with a suit index other
    than -1 in a variant with reversed suits or a sudoku variant,
    [playStackStarts] for a [play] in a sudoku variant, [cardStatus] for a
    [play] or [discard] with suit index and rank other than -1), and only
    at the suit of the action: the entries of every other suit stay. *)
Theorem tables_written_at_suit s action playing shadowing finished
    hypothetical metadata ourNotes s' :
  let variant := getVariant E (variantName (options metadata)) in
  gameStateReducer E s action playing shadowing finished hypothetical metadata
    ourNotes = Produced s' →
  (writesDirections E action variant = false →
   playStackDirections s' = playStackDirections s)
  ∧ (writesStarts action variant = false →
     playStackStarts s' = playStackStarts s)
  ∧ (writesStatus action = false → cardStatus s' = cardStatus s)
  ∧ ∀ n, suitIndexOf action ≠ Some n →
      playStackDirections s' !! n = playStackDirections s !! n
      ∧ playStackStarts s' !! n = playStackStarts s !! n
      ∧ cardStatus s' !! n = cardStatus s !! n.
Proof.
  intros variant (d1 & Hrun & Hrest)%gameStateReducer_Produced_drafts.
  pose proof (wp_Return _ _ _ _ _ _
    (actionBranch_derived action playing shadowing finished hypothetical
       metadata _ (createDraft s)) Hrun) as (_ & Hd1 & Hs1 & Hc1 & _).
  cbn [copy_ createDraft] in *.
  destruct Hrest as [[_ ->]|(_ & d2 & Hderive & ->)].
  - by rewrite Hd1, Hs1, Hc1.
  - pose proof (wp_Return _ _ _ _ _ _
      (derive_tables action playing shadowing metadata ourNotes variant d1)
      Hderive) as Htables.
    cbv zeta in Htables. by rewrite Hd1, Hs1, Hc1 in Htables.
Qed.

(** X17: [millisecondsToClockString] prints minutes, a colon and seconds in
    two characters, where the seconds are below 60 and minutes and seconds
    together are the magnitude of the argument in seconds, rounded up; the
    sign of the argument does not matter. *)
Theorem clock_string_rounds_up milliseconds :
  millisecondsToClockString (- milliseconds)
  = millisecondsToClockString milliseconds
  ∧ ∃ minutes seconds,
      millisecondsToClockString milliseconds
      = pretty minutes +:+ ":" +:+ pad2 seconds
      ∧ 0 ≤ minutes ∧ 0 ≤ seconds < 60
      ∧ String.length (pad2 seconds) = 2%nat
      ∧ 1000 * (60 * minutes + seconds - 1) < Z.abs milliseconds
        ≤ 1000 * (60 * minutes + seconds).
Proof.
  split; [apply millisecondsToClockString_opp|].
  unfold millisecondsToClockString.
  set (total := (Z.abs milliseconds + 999) `div` 1000).
  exists (total `div` 60), (total `mod` 60).
  assert (0 ≤ total) by (apply Z.div_pos; lia).
  pose proof (Z.mod_pos_bound total 60 ltac:(lia)).
  split; [done|]. split; [by apply Z.div_pos|]. split; [done|].
  split; [apply pad2_length; lia|].
  rewrite <- Z.div_mod by lia. subst total.
  pose proof (Z.div_mod (Z.abs milliseconds + 999) 1000 ltac:(lia)).
  pose proof (Z.mod_pos_bound (Z.abs milliseconds + 999) 1000 ltac:(lia)).
  lia.
Qed.

(** X18: the names that [getPlayerNames] prints are sorted, so the text
    does not depend on the order of the votes. *)
Theorem vote_text_ignores_vote_order (votes votes' : list PlayerIndex)
    (metadata : GameMetadata T) :
  votes ≡ₚ votes' →
  getPlayerNames (Some votes) metadata = getPlayerNames (Some votes') metadata.
Proof.
  intros Hp. unfold getPlayerNames.
  by rewrite (sort_strings_Permutation
    ((λ i, getPlayerName i metadata) <$> votes)
    ((λ i, getPlayerName i metadata) <$> votes')) by by rewrite Hp.
Qed.

(** X19: [getPlayerNames] on its edges: [null] gives [The players]; one
    voter gives a comma, [and] and the name; no voter gives a comma, [and]
    and [undefined]; two voters give the two names in sorted order with
    [and] between them. *)
Theorem vote_text_edges (i j : PlayerIndex) (metadata : GameMetadata T) :
  let nameOf k := getPlayerName k metadata in
  getPlayerNames None metadata = "The players"
  ∧ getPlayerNames (Some []) metadata = ", and undefined"
  ∧ getPlayerNames (Some [i]) metadata = ", and " +:+ nameOf i
  ∧ getPlayerNames (Some [i; j]) metadata
    = if Js.stringLeb (nameOf i) (nameOf j)
      then nameOf i +:+ " and " +:+ nameOf j
      else nameOf j +:+ " and " +:+ nameOf i.
Proof.
  intros nameOf. repeat split; try done.
  unfold getPlayerNames. cbn. fold (nameOf i) (nameOf j).
  by destruct (Js.stringLeb (nameOf i) (nameOf j)).
Qed.

(** X20: in a throw-it-in-a-hole variant, while the game is played or
    shadowed, the narration of a play does not depend on the order, the
    suit or the rank of the card: two plays of the same player from the
    same slot read the same. *)
Theorem play_text_hides_card (a a' : ActionPlay) slot touched playing
    shadowing hypothetical metadata :
  throwItInAHole (getVariant E (variantName (options metadata))) = true →
  playing || shadowing = true →
  p_playerIndex a = p_playerIndex a' →
  text_play E a slot touched playing shadowing hypothetical metadata
  = text_play E a' slot touched playing shadowing hypothetical metadata.
Proof.
  intros Hhole Hplay Hplayer. unfold text_play.
  rewrite Hhole, Hplay, Hplayer. cbn [andb]. by rewrite !orb_true_r.
Qed.

(** X21: in a throw-it-in-a-hole variant, while the game is played or
    shadowed, the narration of a failed discard of a card of unknown suit or
    rank is the narration of a play by the same player, as long as the card
    came from a slot of the hand or a clue touched it. *)
Theorem misplay_text_reads_as_play (a : ActionDiscard) (a' : ActionPlay) slot
    touched playing shadowing hypothetical metadata :
  throwItInAHole (getVariant E (variantName (options metadata))) = true →
  playing || shadowing = true →
  d_failed a = true →
  d_suitIndex a = Some (-1) ∨ d_rank a = -1 →
  is_Some slot ∨ touched = true →
  d_playerIndex a = p_playerIndex a' →
  text_discard E a slot touched playing shadowing hypothetical metadata
  = text_play E a' slot touched playing shadowing hypothetical metadata.
Proof.
  intros Hhole Hplay Hfailed Hunknown Hslot Hplayer.
  unfold text_discard, text_play.
  rewrite Hhole, Hplay, Hfailed, Hplayer. cbn [andb negb].
  rewrite !orb_true_r, !andb_false_r.
  assert (bool_decide (d_suitIndex a = Some (-1))
          || bool_decide (d_rank a = -1) = true) as ->.
  { destruct Hunknown as [->| ->]; [done|]. by rewrite orb_true_r. }
  destruct slot as [n|], touched; try done.
  by destruct Hslot as [[? ?]|?].
Qed.

(** X22: [clue] of [text.ts] outside the cow-and-pig and duck variants and
    the character [Quacker] never throws.  In them it returns exactly when
    every card of the clue has a slot in the target's hand, and otherwise
    throws the [assertDefined] error for a card of the clue that has none. *)
Theorem clue_text_needs_slots (a : ActionClue)
    (hand : list (option CardOrder))
    hypothetical metadata :
  let variant := getVariant E (variantName (options metadata)) in
  let special :=
    cowAndPig variant || duck variant
    || String.eqb
         (getCharacterNameForPlayer E (c_giver a) (characterAssignments metadata))
         "Quacker" in
  let result := text_clue E a (Some hand) hypothetical metadata in
  (special = false → ∃ text, result = Return text)
  ∧ (special = true →
     ((∃ text, result = Return text)
      ↔ Forall (λ order, is_Some (getCardSlot E order hand)) (c_list a))
     ∧ ∀ e, result = Throw e →
         ∃ order,
           e = SlotNotFound order ∧ order ∈ c_list a
           ∧ getCardSlot E order hand = None).
Proof.
  intros variant special result.
  assert (∀ orders,
    match clueSlots E orders (Some hand) with
    | Return _ => Forall (λ order, is_Some (getCardSlot E order hand)) orders
    | Throw e =>
        ∃ order,
          e = SlotNotFound order ∧ order ∈ orders
          ∧ getCardSlot E order hand = None
    end) as Hslots.
  { induction orders as [|order orders IH]; cbn; [done|].
    destruct (getCardSlot E order hand) as [slot|] eqn:Hslot.
    - destruct (clueSlots E orders (Some hand)) as [slots|e].
      + constructor; [by eexists|done].
      + destruct IH as (o & -> & Hin & Hnone). exists o.
        split; [done|]. split; [by right|done].
    - exists order. split; [done|]. split; [by left|done]. }
  subst result. unfold text_clue. fold variant. fold special.
  split; intros Hspecial; rewrite Hspecial; [by eexists|].
  specialize (Hslots (c_list a)).
  destruct (clueSlots E (c_list a) (Some hand)) as [slots|e].
  - split; [|done]. split; [done|]. by eexists.
  - destruct Hslots as (order & -> & Hin & Hnone). split.
    + split; [by intros [? ?]|]. intros Hall.
      rewrite Forall_forall in Hall. destruct (Hall _ Hin) as [? ?]. congruence.
    + intros e [= <-]. by exists order.
Qed.

(** X23: a [draw] action that ends the initial deal appends the entry
    [NAME goes first].  When the current player has a name the text is the
    one of [goesFirst] of [text.ts]; when the current player is [null] or
    has no name the reducer prints [undefined goes first], where [goesFirst]
    would print [[unknown] goes first]. *)
Theorem draw_narrates_first_player s (a : ActionDraw) playing shadowing
    finished hypothetical metadata ourNotes :
  let name :=
    i ← currentPlayerIndex (turn s) ; Js.get (playerNames metadata) i in
  deckRules_isInitialDealFinished E (cardsRemainingInTheDeck s - 1) metadata
    = true →
  ∃ s' text,
    gameStateReducer E s (ActDraw a) playing shadowing finished hypothetical
      metadata ourNotes = Produced s'
    ∧ log s' = log s ++ [{| log_turn := turnNum (turn s) + 1; log_text := text |}]
    ∧ (is_Some name →
       text = goesFirst (currentPlayerIndex (turn s)) (playerNames metadata))
    ∧ (name = None →
       text = "undefined goes first"
       ∧ goesFirst (currentPlayerIndex (turn s)) (playerNames metadata)
         = "[unknown] goes first").
Proof.
  intros name Hdeal.
  destruct (gameStateReducer_total s (ActDraw a) playing shadowing finished
    hypothetical metadata ourNotes _ eq_refl
    (draw_branch_log a playing shadowing finished hypothetical metadata _
       (createDraft s))) as (s' & d1 & Hs' & Hcore & Hlog).
  apply core_fields in Hcore as (_ & _ & _ & _ & _ & _ & _ & _ & Hl & _).
  cbn [copy_ createDraft] in Hlog. rewrite Hdeal in Hlog.
  exists s'. eexists. split; [done|]. rewrite Hl. split; [exact Hlog|].
  fold name. unfold goesFirst. split.
  - intros [n Hname]. rewrite Hname.
    destruct (currentPlayerIndex (turn s)) as [i|]; [|done].
    cbn in Hname. by rewrite Hname.
  - intros Hname. rewrite Hname. split; [done|].
    destruct (currentPlayerIndex (turn s)) as [i|]; [|done].
    cbn in Hname. by rewrite Hname.
Qed.

(** X24: after a [play] or [discard] of a card of known suit and rank, the
    row of that suit in [cardStatus] holds, for every rank of the variant,
    the status that [cardRules.status] gives on the deck that [cardsReducer]
    returned (before the double-discard and known-trash marking) and on the
    play stacks, directions and starts of the new state; every other rank
    of the row keeps its entry.  [switched] is the state that the [switch]
    left: the prior state with the new hands, stacks, tokens, score and
    log. *)
Theorem status_recomputed_for_every_rank s (pd : ActionPlayOrDiscard) playing
    shadowing finished hypothetical metadata ourNotes s' suitIndex :
  let variant := getVariant E (variantName (options metadata)) in
  pd_suitIndex pd = Some suitIndex → suitIndex ≠ -1 → pd_rank pd ≠ -1 →
  gameStateReducer E s (toAction pd) playing shadowing finished hypothetical
    metadata ourNotes = Produced s' →
  ∃ switched,
    core switched = core s' ∧ deck switched = deck s
    ∧ cardStatus switched = cardStatus s ∧ turn switched = turn s
    ∧ stats switched = stats s
    ∧ playStackDirections switched = playStackDirections s
    ∧ playStackStarts switched = playStackStarts s
    ∧ ∀ rank,
        (cardStatus s' !! suitIndex) ≫= (.!! rank)
        = if decide (rank ∈ ranks variant)
          then Some
            (cardRules_status E suitIndex rank
               (cardsReducer E (deck s) (toAction pd) switched metadata)
               (playStacks s') (playStackDirections s') (playStackStarts s')
               variant)
          else (cardStatus s !! suitIndex) ≫= (.!! rank).
Proof.
  intros variant Hsuit Hknown Hrank Hproduced.
  pose proof Hproduced as (d1 & Hrun & Hrest)%gameStateReducer_Produced_drafts.
  apply gameStateReducer_Produced in Hproduced as (d1' & Hrun' & Hcore).
  fold variant in Hrun, Hrun'. rewrite Hrun in Hrun'. simplify_eq.
  pose proof (wp_Return _ _ _ _ _ _
    (actionBranch_derived (toAction pd) playing shadowing finished
       hypothetical metadata variant (createDraft s)) Hrun)
    as (Hdeck & Hdir & Hst & Hcs & Hturn & Hstats).
  pose proof (wp_Return _ _ _ _ _ _
    (actionBranch_base (toAction pd) playing shadowing finished
       hypothetical metadata variant (createDraft s)) Hrun) as Hbase.
  cbn [copy_ base_ createDraft] in *.
  destruct Hrest as [[Hnote _]|(_ & d2 & Hderive & ->)];
    [by destruct pd|].
  exists (copy_ d1').
  split; [unfold core; by rewrite Hcore, H, H0, H1, H2, H3, H4, H5, H6, H7, H8|].
  repeat (split; [done|]).
  assert (playOrDiscardCard (T:=T) (toAction pd) = Some (Some suitIndex, pd_rank pd))
    as Hcard by (destruct pd; cbn in *; by rewrite Hsuit).
  pose proof (wp_Return _ _ _ _ _ _
    (derive_status (toAction pd) playing shadowing metadata ourNotes variant
       d1' suitIndex (pd_rank pd) Hcard Hknown Hrank) Hderive) as Hrow.
  cbv zeta in Hrow. intros rank. by rewrite Hrow, Hbase, Hcs.
Qed.

(** X25: in the cow-and-pig and duck variants and for the character
    [Quacker], the narration of a clue lists the slots in ascending order,
    so it does not depend on the order in which the action lists the
    touched cards. *)
Theorem clue_text_ignores_list_order (a a' : ActionClue) targetHand
    hypothetical metadata text :
  let variant := getVariant E (variantName (options metadata)) in
  cowAndPig variant || duck variant
  || String.eqb
       (getCharacterNameForPlayer E (c_giver a) (characterAssignments metadata))
       "Quacker" = true →
  c_clue a' = c_clue a → c_giver a' = c_giver a → c_target a' = c_target a →
  c_list a' ≡ₚ c_list a →
  text_clue E a targetHand hypothetical metadata = Return text →
  text_clue E a' targetHand hypothetical metadata = Return text.
Proof.
  intros variant Hspecial Hclue Hgiver Htarget Hlist. unfold text_clue.
  fold variant. rewrite Hclue, Hgiver, Htarget, Hspecial.
  destruct (clueSlots E (c_list a) targetHand) as [slots|e] eqn:Hslots;
    [|done].
  destruct (clueSlots_Permutation _ (c_list a') _ _ (symmetry Hlist) Hslots)
    as (slots' & -> & Hperm).
  by rewrite (sort_Z_Permutation _ _ Hperm).
Qed.

(** X26: the [hypothetical] flag of the narration functions [clue], [play]
    and [discard] of [text.ts] only puts [[Hypo] ] in front of the text: it
    changes neither the rest of the text nor whether [clue] throws. *)
Theorem hypothetical_only_prefixes :
  (∀ a slot touched playing shadowing metadata,
     text_play E a slot touched playing shadowing true metadata
     = "[Hypo] " +:+ text_play E a slot touched playing shadowing false metadata)
  ∧ (∀ a slot touched playing shadowing metadata,
       text_discard E a slot touched playing shadowing true metadata
       = "[Hypo] "
           +:+ text_discard E a slot touched playing shadowing false metadata)
  ∧ ∀ a targetHand metadata,
      text_clue E a targetHand true metadata
      = match text_clue E a targetHand false metadata with
        | Return text => Return ("[Hypo] " +:+ text)
        | Throw e => Throw e
        end.
Proof.
  split; [done|]. split; [done|].
  intros a targetHand metadata. unfold text_clue.
  destruct (_ || _); [|done].
  by destruct (clueSlots E (c_list a) targetHand).
Qed.

(** X27: a card that a player draws and then plays or discards, without
    having held a card of that order before, leaves from slot 1, and the
    hands are again the hands before the draw. *)
Theorem drawn_card_leaves_from_slot_one s (dr : ActionDraw)
    (pd : ActionPlayOrDiscard) playing shadowing finished hypothetical
    metadata ourNotes s1 s2 hand :
  Js.get (hands s) (dr_playerIndex dr) = Some hand →
  Some (dr_order dr) ∉ hand →
  pd_playerIndex pd = dr_playerIndex dr →
  pd_order pd = dr_order dr →
  gameStateReducer E s (ActDraw dr) playing shadowing finished hypothetical
    metadata ourNotes = Produced s1 →
  gameStateReducer E s1 (toAction pd) playing shadowing finished hypothetical
    metadata ourNotes = Produced s2 →
  hands s2 = hands s
  ∧ ∃ card,
      Js.get (deck s1) (pd_order pd) = Some card
      ∧ log s2 = log s1 ++ [{|
          log_turn := turnNum (turn s1) + 1;
          log_text :=
            narration E pd (Some 1) (cardRules_isClued E card) playing
              shadowing hypothetical metadata |}].
Proof.
  intros Hhand Hout Hplayer Horder
    (d1 & Hrun1 & Hcore1)%gameStateReducer_Produced
    (d2 & Hrun2 & Hcore2)%gameStateReducer_Produced.
  apply core_fields in Hcore1 as (Hh1 & _).
  apply core_fields in Hcore2 as (Hh2 & _ & _ & _ & _ & _ & _ & _ & Hl2 & _).
  pose proof (wp_Return _ _ _ _ _ _
    (draw_branch dr playing shadowing finished hypothetical metadata _
       (createDraft s)) Hrun1) as (_ & Hdrawn & _).
  pose proof (wp_Return _ _ _ _ _ _
    (playOrDiscard_branch pd playing shadowing finished hypothetical metadata
       _ (createDraft s1)) Hrun2)
    as (hand1 & card & Hhand1 & Hcard & Hleft & Hlog & _).
  cbn [copy_ createDraft] in *. rewrite Hhand in Hdrawn.
  rewrite <- Hh1 in Hdrawn. rewrite <- Hh2 in Hleft. rewrite <- Hl2 in Hlog.
  apply JsFacts.get_Some in Hhand as [Hpos Hhand].
  rewrite Hplayer, Hdrawn in Hhand1.
  apply JsFacts.get_Some in Hhand1 as [_ Hhand1].
  rewrite list_lookup_insert_eq in Hhand1 by by eapply lookup_lt_Some.
  injection Hhand1 as <-.
  rewrite Horder, (removeFromHand_last _ _ Hout) in Hleft, Hlog.
  cbn [fst snd] in *. split.
  - rewrite Hleft, Hplayer, Hdrawn, list_insert_insert_eq.
    by apply list_insert_id.
  - by exists card.
Qed.
End Properties.

(** * The claims on the small instance *)

Import Instance.

(** Runs the reducer on the closed input of the goal. *)
Ltac run := vm_compute; reflexivity.

(** Alice plays her second card onto an empty stack: the score is 1. *)
Lemma play_increments_score_witness :
  ∃ s',
    reduce noVariant (state (Some 0)) (ActPlay (playCard 1)) = Produced s'
    ∧ score s' = score (state (Some 0)) + 1.
Proof.
  eexists. split; [run|].
  apply (play_increments_score externals (state (Some 0)) (playCard 1)
           true false false false noVariant None).
  run.
Defined.

(** A clue before the end of the deal: the draft that is dropped holds 7
    clue tokens, the state of the caller still holds 8. *)
Lemma failure_is_atomic_witness :
  ∃ d',
    gameStateReducerFunction externals (ActClue clueCards) true false false
      false noVariant None (createDraft (state None))
    = (Throw (BeforeInitialDeal "clue"), d')
    ∧ reduce noVariant (state None) (ActClue clueCards)
      = Threw (BeforeInitialDeal "clue")
    ∧ base_ d' = state None
    ∧ clueTokens (base_ d') = 8
    ∧ clueTokens (copy_ d') = 7.
Proof.
  eexists. split; [run|].
  edestruct (failure_is_atomic externals (state None) (ActClue clueCards)
               true false false false noVariant None)
    as (Hthrew & Hbase & Hclue); [run|].
  split; [exact Hthrew|]. split; [exact Hbase|]. split; [reflexivity|].
  destruct (Hclue clueCards eq_refl eq_refl) as [_ Htokens].
  exact Htokens.
Defined.

Lemma clue_before_deal_throws_witness :
  segment (turn (state None)) = None
  ∧ reduce noVariant (state None) (ActClue clueCards)
    = Threw (BeforeInitialDeal "clue").
Proof.
  split; [reflexivity|].
  apply (clue_before_deal_throws externals (state None) clueCards true false
           false false noVariant None).
  reflexivity.
Defined.


(** A play of a card with suit index -1 outside the hole variants. *)
Lemma invalid_suit_index_throws_witness :
  reduce noVariant (state (Some 0)) (ActPlay playUnknown)
  = Threw (BadPlaySuitIndex (Some (-1))).
Proof.
  apply (invalid_suit_index_throws externals (state (Some 0))
           (IsPlay playUnknown) true false false false noVariant None
           (cards [0; 1; 2])).
  - reflexivity.
  - intros (Hhole & _). discriminate Hhole.
  - intros n [= <-]. lia.
Defined.

(** Alice discards the card 1 from slot 2, and then the card 7, which she
    does not hold. *)
Lemma discard_slot_and_log_witness :
  ∃ s1 s2,
    reduce noVariant (state (Some 0)) (ActDiscard (discardCard 1)) = Produced s1
    ∧ hands s1 = [cards [0; 2]; cards [3; 4; 5]]
    ∧ log s1 = [{| log_turn := 1;
                   log_text := "Alice discards 2/3 from slot #2" |}]
    ∧ reduce noVariant (state (Some 0)) (ActDiscard (discardCard 7)) = Produced s2
    ∧ hands s2 = [cards [0; 1; 2]; cards [3; 4; 5]]
    ∧ log s2 = [{| log_turn := 1;
                   log_text := "Alice discards 2/3 from the deck" |}].
Proof.
  destruct (discard_slot_and_log externals (state (Some 0)) (discardCard 1)
              true false false false noVariant None (cards [0; 1; 2]) eq_refl)
    as [Hfound _].
  destruct (discard_slot_and_log externals (state (Some 0)) (discardCard 7)
              true false false false noVariant None (cards [0; 1; 2]) eq_refl)
    as [_ Habsent].
  assert (Some 7 ∉ cards [0; 1; 2]) as Hnotin.
  { intros Hin.
    repeat (apply elem_of_cons in Hin as [Hin|Hin]; [discriminate Hin|]).
    by apply elem_of_nil in Hin. }
  destruct (Habsent Hnotin false eq_refl) as (s2 & Hs2 & Hlog2 & Hhands2).
  { right. exists 2, []. split; [reflexivity|]. split; [lia|reflexivity]. }
  { right. right. exists 2. split; [reflexivity|]. by eexists. }
  eexists _, s2. split; [run|].
  edestruct Hfound as (card & Hcard & Hcase); [run|].
  injection Hcard as <-.
  destruct (decide (Some (d_order (discardCard 1)) ∈ cards [0; 1; 2]))
    as [_|Hout].
  - destruct Hcase as (_ & Hlog1 & Hhands1).
    split; [exact Hhands1|]. split; [exact Hlog1|].
    split; [exact Hs2|]. split; [exact Hhands2|exact Hlog2].
  - destruct Hout. apply elem_of_cons. right. apply elem_of_cons. by left.
Defined.

(** With card cycling, Alice's chop card 0 goes to the front of her hand
    when she gives a clue. *)
Lemma clue_cycles_chop_card_witness :
  ∃ s',
    reduce cycling (state (Some 0)) (ActClue clueCards) = Produced s'
    ∧ hands (state (Some 0)) = [cards [0; 1; 2]; cards [3; 4; 5]]
    ∧ hands s' = [cards [1; 2; 0]; cards [3; 4; 5]].
Proof.
  eexists. split; [run|]. split; [reflexivity|].
  apply (clue_cycles_chop_card externals (state (Some 0)) clueCards true false
           false false cycling None _ (cards [0; 1; 2]) (Some 0));
    [reflexivity..|run].
Defined.

(** C9, as stated, fails on a [strike] action: the reducer yields a state
    whose log is the log of the prior state. *)
Lemma strike_appends_no_narration :
  ∃ s',
    reduce noVariant (state (Some 0)) (ActStrike strikeCard) = Produced s'
    ∧ strikes s' = [{| strike_order := 1; strike_segment := Some 0 |}]
    ∧ log s' = log (state (Some 0))
    ∧ ¬ appendsNarration (state (Some 0)) s'.
Proof.
  eexists. split; [run|]. split; [reflexivity|]. split; [reflexivity|].
  intros (entries & Hsome & Hlog & _). cbn in Hlog.
  apply Hsome. symmetry. exact Hlog.
Qed.

(** The clue of Alice appends one entry of turn 1, her strike none. *)
Lemma narration_by_action_witness :
  ∃ s1 s2,
    reduce noVariant (state (Some 0)) (ActClue clueCards) = Produced s1
    ∧ log s1 = [{| log_turn := 1;
                   log_text := "Alice tells Bob about two 3s" |}]
    ∧ reduce noVariant (state (Some 0)) (ActStrike strikeCard) = Produced s2
    ∧ log s2 = [].
Proof.
  destruct (narration_by_action externals (state (Some 0)) (ActClue clueCards)
              true false false false noVariant None) as [Hclue _].
  destruct (narration_by_action externals (state (Some 0))
              (ActStrike strikeCard) true false false false noVariant None)
    as [_ Hstrike].
  destruct (Hstrike strikeCard eq_refl) as (s2 & Hs2 & Hlog2).
  eexists _, s2. split; [run|].
  edestruct Hclue as (text & Hlog1); [run|].
  split; [|split; [exact Hs2|exact Hlog2]].
  rewrite Hlog1. injection Hlog1 as <-. reflexivity.
Defined.

(** In a hole variant, the play of an unknown card (suit index -1) goes to
    the hole and counts as an attempted play. *)
Lemma hole_redirection_witness :
  ∃ s',
    reduce holeVariant (state (Some 0)) (ActPlay playUnknown) = Produced s'
    ∧ hole s' = [1]
    ∧ numAttemptedCardsPlayed s' = 1
    ∧ playStacks s' = playStacks (state (Some 0))
    ∧ clueTokens s' = clueTokens (state (Some 0)).
Proof.
  eexists. split; [run|].
  destruct (hole_redirection externals (state (Some 0)) (IsPlay playUnknown)
              true false false false holeVariant None)
    as (_ & Hproduced & _ & _).
  lazymatch goal with
  | |- hole ?s' = _ ∧ _ => specialize (Hproduced s')
  end.
  destruct (decide _) as [_|Hnot].
  - destruct Hproduced as (Hhole & Hnum & Hplay & _ & Htokens); [run|].
    split; [exact Hhole|]. split; [exact Hnum|].
    split; [exact Hplay|exact Htokens].
  - destruct Hnot. split; [reflexivity|]. split; [by left|].
    split; [reflexivity|exact I].
Defined.

(** * The further properties on the small instance *)

(** Alice's clue to Bob takes one of the eight clue tokens and leaves the
    score at 0. *)
Lemma clue_records_negative_list_witness :
  ∃ s',
    reduce noVariant (state (Some 0)) (ActClue clueCards) = Produced s'
    ∧ clueTokens s' = 7 ∧ score s' = 0.
Proof.
  eexists. split; [run|].
  edestruct (clue_records_negative_list externals (state (Some 0)) clueCards
               true false false false noVariant None)
    as (Htokens & _ & Hscore & _); [run|].
  split; [exact Htokens|exact Hscore].
Defined.

(** With card cycling, the hands after Alice's clue hold the cards they
    held; with a chop index of 7, her hand ends in [undefined]. *)
Lemma clue_keeps_cards_witness :
  ∃ s1 s2,
    reduce cycling (state (Some 0)) (ActClue clueCards) = Produced s1
    ∧ Forall2 (≡ₚ) (hands s1) (hands (state (Some 0)))
    ∧ gameStateReducer chopBeyond (state (Some 0)) (ActClue clueCards) true
        false false false cycling None
      = Produced s2
    ∧ hands s2 = [cards [0; 1; 2] ++ [None]; cards [3; 4; 5]].
Proof.
  eexists _, _. split; [run|].
  edestruct (clue_keeps_cards externals (state (Some 0)) clueCards true false
               false false cycling None) as [_ Hgiver]; [run|].
  destruct (Hgiver (cards [0; 1; 2]) eq_refl)
    as (hand1 & _ & _ & Hperm & _).
  destruct Hperm as [_ Hall]; [discriminate|reflexivity|].
  split; [exact Hall|]. split; [run|].
  edestruct (clue_keeps_cards chopBeyond (state (Some 0)) clueCards true false
               false false cycling None) as [_ Hbeyond]; [run|].
  destruct (Hbeyond (cards [0; 1; 2]) eq_refl)
    as (hand2 & Hhands & _ & _ & Hundefined).
  rewrite Hhands, Hundefined; [reflexivity|reflexivity|discriminate|].
  right. discriminate.
Defined.

(** A clue to a player who is not at the table. *)
Lemma clue_target_without_hand_witness :
  reduce noVariant (state (Some 0)) (ActClue clueNobody) = Threw TypeError.
Proof.
  apply (clue_target_without_hand externals (state (Some 0)) clueNobody true
           false false false noVariant None).
  - exists 0. reflexivity.
  - reflexivity.
  - reflexivity.
Defined.

(** Alice discards the card 1, a 3 of suit 2. *)
Lemma discard_goes_to_discard_stack_witness :
  ∃ s',
    reduce noVariant (state (Some 0)) (ActDiscard (discardCard 1)) = Produced s'
    ∧ discardStacks s' = [[]; []; [1]; []; []]
    ∧ playStacks s' = [[]; []; []; []; []].
Proof.
  eexists. split; [run|].
  edestruct (discard_goes_to_discard_stack externals (state (Some 0))
               (discardCard 1) true false false false noVariant None)
    as (suitIndex & stack & Hsuit & _ & Hstack & Hpushed & Hplay & _).
  - intros (Hhole & _). discriminate Hhole.
  - run.
  - injection Hsuit as <-. injection Hstack as <-.
    split; [exact Hpushed|exact Hplay].
Defined.

(** Alice plays the card 1 from slot 2 of her hand: the cards before and
    after it stay. *)
Lemma play_takes_card_from_hand_witness :
  ∃ s' before after,
    reduce noVariant (state (Some 0)) (ActPlay (playCard 1)) = Produced s'
    ∧ cards [0; 1; 2] = before ++ Some 1 :: after
    ∧ hands s' = [before ++ after; cards [3; 4; 5]]
    ∧ Js.length after + 1 = 2.
Proof.
  unfold reduce.
  destruct (gameStateReducer externals (state (Some 0)) (ActPlay (playCard 1))
              true false false false noVariant None)
    as [s'|e] eqn:Hrun; [|by vm_compute in Hrun].
  assert (Js.get (hands (state (Some 0))) (p_playerIndex (playCard 1))
          = Some (cards [0; 1; 2])) as Hhand by run.
  destruct (play_takes_card_from_hand externals (state (Some 0)) (playCard 1)
              true false false false noVariant None s' (cards [0; 1; 2])
              Hhand Hrun)
    as (card & hand' & _ & Hhands & Hcase).
  destruct (decide (Some (p_order (playCard 1)) ∈ cards [0; 1; 2]))
    as [_|Hout].
  - destruct Hcase
      as (slot & before & after & Hsplit & _ & -> & Hslot & Hafter & _).
    exists s', before, after. split; [reflexivity|]. split; [exact Hsplit|].
    split; [exact Hhands|]. exact (eq_trans (eq_sym Hafter) Hslot).
  - destruct Hout. apply elem_of_cons. right. apply elem_of_cons. by left.
Defined.

(** A play by a player who is not at the table. *)
Lemma play_or_discard_without_hand_witness :
  reduce noVariant (state (Some 0)) (ActPlay playStranger) = Threw TypeError.
Proof.
  apply (play_or_discard_without_hand externals (state (Some 0))
           (IsPlay playStranger) true false false false noVariant None).
  reflexivity.
Defined.

(** A [turn] action keeps what the switch writes. *)
Lemma ignored_actions_reach_sub_reducers_witness :
  ∃ s',
    reduce noVariant (state (Some 0)) (ActTurn (tt : OtherAction types))
    = Produced s'
    ∧ core s' = core (state (Some 0)).
Proof.
  destruct (ignored_actions_reach_sub_reducers externals (state (Some 0))
              (ActTurn (tt : OtherAction types)) true false false false
              noVariant None I) as (s' & Hs' & Hcore & _).
  exists s'. split; [exact Hs'|exact Hcore].
Defined.

(** Alice's clue: the log and the clue records grow, the strike records
    and the hole stay. *)
Lemma sequences_only_grow_witness :
  ∃ s',
    reduce noVariant (state (Some 0)) (ActClue clueCards) = Produced s'
    ∧ log (state (Some 0)) `prefix_of` log s'
    ∧ clues (state (Some 0)) `prefix_of` clues s'
    ∧ strikes (state (Some 0)) `prefix_of` strikes s'
    ∧ hole (state (Some 0)) `prefix_of` hole s'.
Proof.
  eexists. split; [run|].
  apply (sequences_only_grow externals (state (Some 0)) (ActClue clueCards)
           true false false false noVariant None).
  run.
Defined.

(** The play of an unknown card in a hole variant: one more attempted play,
    one more card in the hole. *)
Lemma attempted_plays_follow_hole_witness :
  ∃ s',
    reduce holeVariant (state (Some 0)) (ActPlay playUnknown) = Produced s'
    ∧ numAttemptedCardsPlayed s' - Js.length (hole s') = 0.
Proof.
  eexists. split; [run|].
  apply (attempted_plays_follow_hole externals (state (Some 0))
           (ActPlay playUnknown) true false false false holeVariant None).
  run.
Defined.

(** A discard keeps the score. *)
Lemma score_by_action_witness :
  ∃ s',
    reduce noVariant (state (Some 0)) (ActDiscard (discardCard 1)) = Produced s'
    ∧ score s' = score (state (Some 0)).
Proof.
  eexists. split; [run|].
  edestruct (score_by_action externals (state (Some 0))
               (ActDiscard (discardCard 1)) true false false false noVariant
               None) as (Hscore & _); [run|].
  exact Hscore.
Defined.

(** Bob draws a card: 39 cards are left, the clue tokens and the stacks
    stay. *)
Lemma counters_by_action_witness :
  ∃ s',
    reduce noVariant (state None) (ActDraw drawCard) = Produced s'
    ∧ cardsRemainingInTheDeck s' = 39
    ∧ clueTokens s' = 8
    ∧ playStacks s' = playStacks (state None).
Proof.
  eexists. split; [run|].
  edestruct (counters_by_action externals (state None) (ActDraw drawCard) true
               false false false noVariant None)
    as (Hdeck & Htokens & _ & Hplay & _); [run|].
  split; [exact Hdeck|]. split; [exact Htokens|exact Hplay].
Defined.

(** Alice plays a 1 of suit 0 outside the sudoku and reversed variants: no
    direction and no start is written, and the status row of suit 1 is the
    prior one. *)
Lemma tables_written_at_suit_witness :
  ∃ s',
    reduce noVariant (state (Some 0)) (ActPlay (playCard 1)) = Produced s'
    ∧ playStackDirections s' = ∅
    ∧ playStackStarts s' = ∅
    ∧ cardStatus s' !! 1 = cardStatus (state (Some 0)) !! 1.
Proof.
  eexists. split; [run|].
  edestruct (tables_written_at_suit externals (state (Some 0))
               (ActPlay (playCard 1)) true false false false noVariant None)
    as (Hdirections & Hstarts & _ & Hother); [run|].
  split; [exact (Hdirections eq_refl)|]. split; [exact (Hstarts eq_refl)|].
  destruct (Hother 1) as (_ & _ & Hstatus); [|exact Hstatus].
  intros [= Hsuit].
Defined.

(** The votes of Alice and Bob in both orders. *)
Lemma vote_text_ignores_vote_order_witness :
  getPlayerNames (Some [1; 0]) noVariant = getPlayerNames (Some [0; 1]) noVariant
  ∧ getPlayerNames (Some [1; 0]) noVariant = "Alice and Bob".
Proof.
  split; [|reflexivity].
  apply (vote_text_ignores_vote_order [1; 0] [0; 1] noVariant).
  apply perm_swap.
Defined.

(** In the hole variant the play of a 1 of suit 0 reads as the play of an
    unknown card. *)
Lemma play_text_hides_card_witness :
  text_play externals (playCard 1) (Some 2) false true false false holeVariant
  = text_play externals playUnknown (Some 2) false true false false holeVariant.
Proof.
  apply (play_text_hides_card externals (playCard 1) playUnknown (Some 2)
           false true false false holeVariant); reflexivity.
Defined.

(** In the hole variant Alice's misplay of an unknown card reads as a
    play. *)
Lemma misplay_text_reads_as_play_witness :
  text_discard externals misplayUnknown (Some 2) false true false false
    holeVariant
  = text_play externals playUnknown (Some 2) false true false false holeVariant.
Proof.
  apply (misplay_text_reads_as_play externals misplayUnknown playUnknown
           (Some 2) false true false false holeVariant).
  - reflexivity.
  - reflexivity.
  - reflexivity.
  - left. reflexivity.
  - left. exists 2. reflexivity.
  - reflexivity.
Defined.

(** The clue of the cards 3 and 4: a text without the character; with it, a
    text against Bob's hand and an error against Alice's hand, which holds
    neither card. *)
Lemma clue_text_needs_slots_witness :
  (∃ text,
     text_clue externals clueCards (Some (cards [3; 4; 5])) false noVariant
     = Return text)
  ∧ (∃ text,
       text_clue quackers clueCards (Some (cards [3; 4; 5])) false noVariant
       = Return text)
  ∧ ∃ order,
      text_clue quackers clueCards (Some (cards [0; 1; 2])) false noVariant
      = Throw (SlotNotFound order)
      ∧ getCardSlot quackers order (cards [0; 1; 2]) = None.
Proof.
  split; [|split].
  - destruct (clue_text_needs_slots externals clueCards (cards [3; 4; 5]) false
                noVariant) as [Hplain _].
    exact (Hplain eq_refl).
  - destruct (clue_text_needs_slots quackers clueCards (cards [3; 4; 5]) false
                noVariant) as [_ Hspecial].
    destruct (Hspecial eq_refl) as [[_ Hall] _]. apply Hall.
    constructor; [eexists; run|]. constructor; [eexists; run|]. constructor.
  - destruct (clue_text_needs_slots quackers clueCards (cards [0; 1; 2]) false
                noVariant) as [_ Hspecial].
    destruct (Hspecial eq_refl) as [_ Hthrow].
    destruct (Hthrow (SlotNotFound 3) eq_refl) as (order & _ & _ & Hnone).
    exists 3. split; [reflexivity|reflexivity].
Defined.

(** Bob draws the last card of the deal: Alice goes first; when nobody is
    the current player the entry names [undefined]. *)
Lemma draw_narrates_first_player_witness :
  ∃ s1 s2,
    reduce noVariant lastDeal (ActDraw drawCard) = Produced s1
    ∧ log s1 = [{| log_turn := 1; log_text := "Alice goes first" |}]
    ∧ reduce noVariant lastDealNobody (ActDraw drawCard) = Produced s2
    ∧ log s2 = [{| log_turn := 1; log_text := "undefined goes first" |}].
Proof.
  destruct (draw_narrates_first_player externals lastDeal drawCard true false
              false false noVariant None eq_refl)
    as (s1 & text1 & Hs1 & Hlog1 & Hname1 & _).
  destruct (draw_narrates_first_player externals lastDealNobody drawCard true
              false false false noVariant None eq_refl)
    as (s2 & text2 & Hs2 & Hlog2 & _ & Hname2).
  exists s1, s2. split; [exact Hs1|].
  split; [rewrite Hlog1, Hname1; [reflexivity|by eexists]|].
  split; [exact Hs2|].
  destruct (Hname2 eq_refl) as [-> _]. exact Hlog2.
Defined.

(** Alice plays a 1 of suit 0: the status row of suit 0 holds an entry for
    the rank 3 and none for the rank 7, which the variant does not have. *)
Lemma status_recomputed_for_every_rank_witness :
  ∃ s',
    reduce noVariant (state (Some 0)) (ActPlay (playCard 1)) = Produced s'
    ∧ (cardStatus s' !! 0) ≫= (.!! 3) = Some 0
    ∧ (cardStatus s' !! 0) ≫= (.!! 7) = None.
Proof.
  unfold reduce.
  destruct (gameStateReducer externals (state (Some 0)) (ActPlay (playCard 1))
              true false false false noVariant None)
    as [s'|e] eqn:Hrun; [|by vm_compute in Hrun].
  destruct (status_recomputed_for_every_rank externals (state (Some 0))
              (IsPlay (playCard 1)) true false false false noVariant None s' 0
              eq_refl)
    as (switched & _ & _ & _ & _ & _ & _ & _ & Hrow);
    [by intros [=]|by intros [=]|exact Hrun|].
  exists s'. split; [reflexivity|].
  split; [exact (Hrow 3)|exact (Hrow 7)].
Defined.

(** For a [Quacker] the clue of the cards 4 and 3 reads as the clue of the
    cards 3 and 4. *)
Lemma clue_text_ignores_list_order_witness :
  text_clue quackers clueCardsReversed (Some (cards [3; 4; 5])) false noVariant
  = Return "Alice quacks at 's slots 2/3".
Proof.
  apply (clue_text_ignores_list_order quackers clueCards clueCardsReversed
           (Some (cards [3; 4; 5])) false noVariant).
  - reflexivity.
  - reflexivity.
  - reflexivity.
  - reflexivity.
  - apply perm_swap.
  - reflexivity.
Defined.

(** Bob draws the card 6 and discards it: the hands are the hands before
    the draw. *)
Lemma drawn_card_leaves_from_slot_one_witness :
  ∃ s1 s2,
    reduce noVariant (state (Some 0)) (ActDraw drawCard) = Produced s1
    ∧ reduce noVariant s1 (ActDiscard discardDrawn) = Produced s2
    ∧ hands s2 = [cards [0; 1; 2]; cards [3; 4; 5]].
Proof.
  eexists _, _. split; [run|]. split; [run|].
  refine (proj1 (drawn_card_leaves_from_slot_one externals (state (Some 0))
                   drawCard (IsDiscard discardDrawn) true false false false
                   noVariant None _ _ (cards [3; 4; 5]) _ _ _ _ _ _)).
  - reflexivity.
  - intros Hin. cbn in Hin.
    repeat (apply elem_of_cons in Hin as [Hin|Hin]; [discriminate Hin|]).
    by apply elem_of_nil in Hin.
  - reflexivity.
  - reflexivity.
  - run.
  - run.
Defined.
